(** * faust.stores.rocksdb: the RocksDB table store

    A shallow embedding of [src/faust/stores/rocksdb.py] (class [Store]) and
    the properties its specification states about it.

    The store is a thin adapter: every method goes through the lazily opened
    engine handle [self.db].  The embedding therefore has three layers:

    - the collaborators the class calls but does not define (pathlib paths,
      the rocksdb engine, [shutil.rmtree]), modelled by their documented
      behaviour in modules [Pathlib] and [Rocksdb];
    - a state-and-exception monad [M] threading the Python object [self] and
      the outside world (current directory, tree of directories, database
      objects alive in the process, log of engine calls);
    - the methods of [Store], one definition per method, named as in the
      source; the three iteration methods are generators, modelled by the
      states a generator object goes through. *)

From Stdlib Require Import Ascii ZArith.
From Stdlib Require Strings.Byte.
From stdpp Require Import gmap strings list sorting lexico.

Local Open Scope Z_scope.

(** ** Byte strings *)

(** Python [bytes]: keys and values are opaque byte strings. *)
Abbreviation byte := Byte.byte.
Abbreviation bytes := (list Byte.byte).

#[global] Instance byte_eq_dec : EqDecision byte := Byte.byte_eq_dec.
#[global] Instance byte_countable : Countable byte :=
  inj_countable Byte.to_N Byte.of_N Byte.of_to_N.

(** The engine orders keys bytewise (its default comparator): single bytes by
    their numeric value, byte strings lexicographically. *)
#[global] Instance byte_lexico : Lexico byte :=
  λ a b, (Byte.to_N a < Byte.to_N b)%N.

(** ** Exceptions and results *)

Inductive Exn :=
| RocksError (cause : string)          (* any error raised by the engine *)
| ValueError (msg : string)
| FileNotFoundError
| NotADirectoryError
| PermissionError
| NotImplementedError (msg : string)
| EngineOpenError (where_ : string) (cause : Exn).
  (* [EngineOpenError] is the error kind the specification names for a failed
     open.  No method of the store constructs it; it is here so that the
     specification's sentence can be stated. *)

Inductive Result (A : Type) :=
| Ok (a : A)
| Raise (e : Exn).
Arguments Ok {A} a.
Arguments Raise {A} e.

#[global] Instance Exn_eq_dec : EqDecision Exn.
Proof. solve_decision. Defined.
#[global] Instance Result_eq_dec `{EqDecision A} : EqDecision (Result A).
Proof. solve_decision. Defined.

(** ** pathlib (POSIX flavour) *)

Module Pathlib.

(** A pure POSIX path: its root ([""], ["/"] or ["//"]) and its components.
    Python keeps the root as the first element of [_parts]; here it is a
    field of its own. *)
Record Path := { root : string; parts : list string }.

#[global] Instance Path_eq_dec : EqDecision Path.
Proof. solve_decision. Defined.
#[global] Instance Path_countable : Countable Path :=
  inj_countable' (λ p, (root p, parts p)) (λ rp, {| root := rp.1; parts := rp.2 |})
                 (λ p, match p with Build_Path _ _ => eq_refl end).

(** [str.split(sep)] for a one-character separator. *)
Fixpoint split (sep : ascii) (s : string) : list string :=
  match s with
  | EmptyString => [EmptyString]
  | String c s' =>
      if decide (c = sep) then EmptyString :: split sep s'
      else match split sep s' with
           | w :: ws => String c w :: ws
           | [] => [String c EmptyString]
           end
  end.

(** [sep in s] *)
Fixpoint contains (c : ascii) (s : string) : bool :=
  match s with
  | EmptyString => false
  | String a s' => if decide (a = c) then true else contains c s'
  end.

(** [s.rfind(c)]: index of the last occurrence, [None] for Python's -1. *)
Fixpoint rfind (c : ascii) (s : string) : option nat :=
  match s with
  | EmptyString => None
  | String a s' =>
      match rfind c s' with
      | Some i => Some (S i)
      | None => if decide (a = c) then Some 0%nat else None
      end
  end.

(** [splitroot]: a leading slash makes the path absolute; exactly two
    leading slashes are kept as the root ["//"]. *)
Definition splitroot (s : string) : string :=
  match s with
  | String "/" (String "/" (String "/" _)) => "/"
  | String "/" (String "/" _) => "//"
  | String "/" _ => "/"
  | _ => ""
  end.

(** [Path(s)]: empty components and ["."] components are dropped. *)
Definition parse (s : string) : Path :=
  {| root := splitroot s;
     parts := filter (λ c, c ≠ "" ∧ c ≠ ".") (split "/" s) |}.

Definition is_absolute (p : Path) : bool := bool_decide (root p ≠ "").

(** [a / b]: an absolute right operand replaces the left one. *)
Definition truediv (a b : Path) : Path :=
  if is_absolute b then b
  else {| root := root a; parts := parts a ++ parts b |}.

(** [p.name]: the final component, empty when there is none. *)
Definition name (p : Path) : string := default "" (last (parts p)).

(** [p.suffix]: from the last dot of the name, unless that dot is the first
    or the last character (the rule of Python 3.6 to 3.13). *)
Definition suffix (p : Path) : string :=
  let n := name p in
  match rfind "." n with
  | Some i =>
      if bool_decide (0 < i < String.length n - 1)%nat
      then String.substring i (String.length n - i) n
      else ""
  | None => ""
  end.

(** [p.with_suffix(suffix)] *)
Definition with_suffix (p : Path) (sfx : string) : Result Path :=
  if contains "/" sfx then Raise (ValueError "Invalid suffix")
  else if bool_decide (sfx ≠ "" ∧ String.prefix "." sfx = false ∨ sfx = ".")
  then Raise (ValueError "Invalid suffix")
  else
    let n := name p in
    if bool_decide (n = "") then Raise (ValueError "has an empty name")
    else
      let old_suffix := suffix p in
      let n' :=
        if bool_decide (old_suffix = "") then n +:+ sfx
        else String.substring 0 (String.length n - String.length old_suffix) n +:+ sfx in
      Ok {| root := root p; parts := removelast (parts p) ++ [n'] |}.

(** [p.absolute()] in a process whose current directory is [cwd]. *)
Definition absolute (cwd p : Path) : Path :=
  if is_absolute p then p else truediv cwd p.

End Pathlib.
Export Pathlib (Path, Build_Path).


(** ** State and exceptions *)

(** A computation over a mutable state [S] that returns or raises.  The state
    survives an exception, as Python's mutations do. *)
Definition ST (S A : Type) : Type := S → Result A * S.

#[global] Instance ST_ret {S} : MRet (ST S) := λ A a s, (Ok a, s).
#[global] Instance ST_bind {S} : MBind (ST S) := λ A B f m s,
  match m s with
  | (Ok a, s') => f a s'
  | (Raise e, s') => (Raise e, s')
  end.

Definition raise {S A} (e : Exn) : ST S A := λ s, (Raise e, s).

(** [with suppress(e): body] *)
Definition suppress {S} (e : Exn) (body : ST S unit) : ST S unit := λ s,
  match body s with
  | (Raise e', s') => if decide (e' = e) then (Ok tt, s') else (Raise e', s')
  | r => r
  end.

(** ** The rocksdb engine and the file system *)

Module Rocksdb.

Record BlockBasedTableFactory := {
  filter_policy : Z;            (* BloomFilterPolicy(bits_per_key) *)
  block_cache : Z;              (* LRUCache(capacity) *)
  block_cache_compressed : Z;   (* LRUCache(capacity) *)
}.

Record Options := {
  create_if_missing : bool;
  max_open_files : Z;
  write_buffer_size : Z;
  max_write_buffer_number : Z;
  target_file_size_base : Z;
  table_factory : BlockBasedTableFactory;
}.

(** A [WriteBatch] is the ordered list of mutations recorded into it. *)
Inductive WriteOp :=
| WPut (k v : bytes)
| WDelete (k : bytes).
Abbreviation WriteBatch := (list WriteOp).

(** A database object designates the directory it was opened on. *)
Record DB := { location : Path }.

Inductive IterKind := Keys | Values | Items.

(** Calls that reach the engine or the file system, in the order made. *)
Inductive Event :=
| EvOpen (p : Path) (o : Options)
| EvGet (k : bytes)
| EvPut (k v : bytes)
| EvDelete (k : bytes)
| EvKeyMayExist (k : bytes)
| EvWrite (w : WriteBatch)
| EvIter (kind : IterKind)
| EvRmtree (p : Path).

#[global] Instance BlockBasedTableFactory_eq_dec : EqDecision BlockBasedTableFactory.
Proof. solve_decision. Defined.
#[global] Instance Options_eq_dec : EqDecision Options.
Proof. solve_decision. Defined.
#[global] Instance WriteOp_eq_dec : EqDecision WriteOp.
Proof. solve_decision. Defined.
#[global] Instance DB_eq_dec : EqDecision DB.
Proof. solve_decision. Defined.
#[global] Instance IterKind_eq_dec : EqDecision IterKind.
Proof. solve_decision. Defined.
#[global] Instance Event_eq_dec : EqDecision Event.
Proof. solve_decision. Defined.

(** What a path holds: a database directory with its key/value table; a
    directory the engine refuses to open (lock held by another process,
    corrupt files), with the cause the engine reports; a plain directory; a
    regular file; a directory the process has no permission on. *)
Inductive Dir :=
| Db (t : gmap bytes bytes)
| Unopenable (cause : string)
| Folder
| File
| Unreadable.

#[global] Instance Dir_eq_dec : EqDecision Dir.
Proof. solve_decision. Defined.

(** The world outside the store object.  [handles] counts, for each directory
    on which a database object of this process is alive, the references that
    keep the object alive: the store's [_db] and one per live iterator.  The
    object is closed, and the directory's lock given back, when the last
    reference goes.  References held by the local variables of a method are
    not counted where they do not outlive the call.

    Paths are taken as written: the model resolves neither [..] nor symbolic
    links, so two paths name the same directory only if they are equal. *)
Record World := {
  cwd : Path;                 (* os.getcwd() *)
  disk : gmap Path Dir;       (* what is there, by absolute path *)
  handles : gmap Path nat;
  trace : list Event;
}.

Definition log (e : Event) (w : World) : World :=
  {| cwd := cwd w; disk := disk w; handles := handles w; trace := trace w ++ [e] |}.

Definition set_disk (d : gmap Path Dir) (w : World) : World :=
  {| cwd := cwd w; disk := d; handles := handles w; trace := trace w |}.

Definition set_handles (hs : gmap Path nat) (w : World) : World :=
  {| cwd := cwd w; disk := disk w; handles := hs; trace := trace w |}.

(** One more reference to the object [h], one less. *)
Definition retain (h : DB) (w : World) : World :=
  set_handles (<[location h := S (default 0%nat (handles w !! location h))]> (handles w)) w.

Definition release (h : DB) (w : World) : World :=
  set_handles
    match handles w !! location h with
    | Some (S (S n)) => <[location h := S n]> (handles w)
    | _ => base.delete (location h) (handles w)
    end w.

(** *** The tree of directories *)

(** [q] is [loc] or lies beneath it. *)
Definition under (loc q : Path) : Prop :=
  Pathlib.root q = Pathlib.root loc
  ∧ Pathlib.parts loc `prefix_of` Pathlib.parts q.

#[global] Instance under_dec : RelDecision under.
Proof. intros loc q. unfold under. apply _. Defined.

(** [p.parent] *)
Definition parent (p : Path) : Path :=
  {| Pathlib.root := Pathlib.root p; Pathlib.parts := removelast (Pathlib.parts p) |}.

(** [q] is a directory in which an entry can be made: the root, or a
    directory within the process's reach. *)
Definition dir_exists (w : World) (q : Path) : bool :=
  match Pathlib.parts q, disk w !! q with
  | [], _ => true
  | _, Some (Db _) | _, Some (Unopenable _) | _, Some Folder => true
  | _, _ => false
  end.

(** What the engine reports when it cannot make a directory in [q]. *)
Definition mkdir_error (w : World) (q : Path) : string :=
  match disk w !! q with
  | Some File => "IO error: Not a directory"
  | Some Unreadable => "IO error: Permission denied"
  | _ => "IO error: No such file or directory"
  end.

(** *** Key order *)

#[global] Instance byte_lexico_po : StrictOrder (@lexico byte _).
Proof.
  unfold lexico, byte_lexico. split.
  - intros a H. exact (N.lt_irrefl _ H).
  - intros a b c. apply N.lt_trans.
Qed.

#[global] Instance byte_lexico_trichotomy : TrichotomyT (@lexico byte _).
Proof.
  intros a b. unfold lexico, byte_lexico.
  destruct (trichotomyT lexico (Byte.to_N a) (Byte.to_N b)) as [[H|H]|H].
  - left; left. exact H.
  - left; right.
    pose proof (Byte.of_to_N a) as Ha. rewrite H, Byte.of_to_N in Ha. congruence.
  - right. exact H.
Defined.

(** Entries are listed in ascending key order; [item_le] is that order on
    entries. *)
Definition item_le (x y : bytes * bytes) : Prop := ¬ lexico (y.1) (x.1).

#[global] Instance item_le_dec : RelDecision item_le.
Proof. intros x y. unfold item_le. apply _. Defined.

(** The entries of a table, as an iterator meets them. *)
Definition entries (t : gmap bytes bytes) : list (bytes * bytes) :=
  merge_sort item_le (map_to_list t).

(** *** Opening, and the handle's methods

    Every call is logged first.  A handle whose directory has vanished or is
    no database makes the engine raise. *)

Definition table_at (w : World) (h : DB) : Result (gmap bytes bytes) :=
  match disk w !! location h with
  | Some (Db t) => Ok t
  | _ => Raise (RocksError "IO error")
  end.

(** What the engine raises when the lock it asks for is held by an object
    of the same process. *)
Definition lock_held : Exn := RocksError "IO error: lock hold by current process".

(** [rocksdb.DB(path, opts)]: the path is taken relative to the current
    directory.  The engine takes the directory's lock, which it refuses to do
    while an object of this process is alive on the directory.  With
    [create_if_missing], a database is made in a plain directory, and a
    missing directory is made first, the last component only: its parent
    has to be there.  The directory is made before the lock is tried. *)
Definition open (p : Path) (o : Options) : ST World DB := λ w,
  let w := log (EvOpen p o) w in
  let loc := Pathlib.absolute (cwd w) p in
  let locked := bool_decide (is_Some (handles w !! loc)) in
  let opened (d : gmap Path Dir) :=
    (Ok {| location := loc |},
     set_handles (<[loc := 1%nat]> (handles w)) (set_disk d w)) in
  match disk w !! loc with
  | Some (Db _) => if locked then (Raise lock_held, w) else opened (disk w)
  | Some (Unopenable cause) => (Raise (RocksError cause), w)
  | Some Unreadable => (Raise (RocksError "IO error: Permission denied"), w)
  | Some File => (Raise (RocksError "IO error: Not a directory"), w)
  | Some Folder =>
      if create_if_missing o
      then if locked then (Raise lock_held, w)
           else opened (<[loc := Db ∅]> (disk w))
      else (Raise (RocksError "Invalid argument: does not exist"), w)
  | None =>
      if create_if_missing o
      then if dir_exists w (parent loc)
           then if locked
                then (Raise lock_held, set_disk (<[loc := Folder]> (disk w)) w)
                else opened (<[loc := Db ∅]> (disk w))
           else (Raise (RocksError (mkdir_error w (parent loc))), w)
      else (Raise (RocksError "Invalid argument: does not exist"), w)
  end.

(** Run [f] on the table behind [h], storing the table it returns. *)
Definition on_table {A} (h : DB) (f : gmap bytes bytes → A * gmap bytes bytes)
  : ST World A := λ w,
  match table_at w h with
  | Ok t => let '(a, t') := f t in
            (Ok a, set_disk (<[location h := Db t']> (disk w)) w)
  | Raise e => (Raise e, w)
  end.

(** Run [f] on the table behind [h] without changing it. *)
Definition read_table {A} (h : DB) (f : gmap bytes bytes → A) : ST World A := λ w,
  match table_at w h with
  | Ok t => (Ok (f t), w)
  | Raise e => (Raise e, w)
  end.

Definition get (h : DB) (k : bytes) : ST World (option bytes) := λ w,
  read_table h (λ t, t !! k) (log (EvGet k) w).

Definition put (h : DB) (k v : bytes) : ST World unit := λ w,
  on_table h (λ t, (tt, <[k := v]> t)) (log (EvPut k v) w).

Definition delete (h : DB) (k : bytes) : ST World unit := λ w,
  on_table h (λ t, (tt, base.delete k t)) (log (EvDelete k) w).

Definition apply_op (t : gmap bytes bytes) (op : WriteOp) : gmap bytes bytes :=
  match op with
  | WPut k v => <[k := v]> t
  | WDelete k => base.delete k t
  end.

(** [db.write(batch)]: the batch's mutations in order, as one commit. *)
Definition write (h : DB) (b : WriteBatch) : ST World unit := λ w,
  on_table h (λ t, (tt, foldl apply_op t b)) (log (EvWrite b) w).

(** *** Iterators

    An iterator sees the table as it was when the iterator was made, and
    keeps the database object it was made from alive.  It is not positioned
    until it is sought; iterating it yields the entries from its position
    onwards, one per step, and nothing when it has no position. *)
Record Iterator (A : Type) := {
  snapshot : list A;
  position : option nat;
  owner : DB;
}.
Arguments snapshot {A} _.
Arguments position {A} _.
Arguments owner {A} _.

Definition new_iterator {A} (kind : IterKind) (view : gmap bytes bytes → list A)
    (h : DB) : ST World (Iterator A) := λ w,
  let w := log (EvIter kind) w in
  match table_at w h with
  | Ok t => (Ok {| snapshot := view t; position := None; owner := h |}, retain h w)
  | Raise e => (Raise e, w)
  end.

Definition iterkeys : DB → ST World (Iterator bytes) :=
  new_iterator Keys (λ t, (entries t).*1).

Definition itervalues : DB → ST World (Iterator bytes) :=
  new_iterator Values (λ t, (entries t).*2).

Definition iteritems : DB → ST World (Iterator (bytes * bytes)) :=
  new_iterator Items entries.

Definition seek_to_first {A} (it : Iterator A) : Iterator A :=
  {| snapshot := snapshot it; position := Some 0%nat; owner := owner it |}.

(** [next(it)]: the entry at the position and the iterator moved past it, or
    nothing ([StopIteration]) when the position is not valid. *)
Definition next {A} (it : Iterator A) : option (A * Iterator A) :=
  match position it with
  | Some n =>
      match snapshot it !! n with
      | Some x =>
          Some (x, {| snapshot := snapshot it; position := Some (S n);
                      owner := owner it |})
      | None => None
      end
  | None => None
  end.

(** Everything [for x in it] meets. *)
Definition remaining {A} (it : Iterator A) : list A :=
  match position it with
  | Some n => drop n (snapshot it)
  | None => []
  end.

(** The iterator goes out of existence, and its reference with it. *)
Definition dispose {A} (it : Iterator A) : ST World unit := λ w,
  (Ok tt, release (owner it) w).

(** *** The approximate-membership probe

    What the bloom filter answers is the engine's business.  It is a
    parameter [may_exist] of the model: given the table and a key, [true] for
    "may be there", [false] for "is not there". *)
Section Probe.
Context (may_exist : gmap bytes bytes → bytes → bool).

(** [db.key_may_exist(key)], with the default [fetch=False]: a pair of the
    answer and [None]. *)
Definition key_may_exist (h : DB) (k : bytes) : ST World (bool * option bytes) := λ w,
  read_table h (λ t, (may_exist t k, None)) (log (EvKeyMayExist k) w).

End Probe.

(** [shutil.rmtree(path)]: the directory goes with all that lies beneath it.
    A missing path, a regular file and a directory out of the process's
    reach make it raise.  When the obstacle lies deeper in the tree, how
    much is gone by the time it is met depends on the order in which the
    tree is walked; the model leaves the tree whole. *)
Definition rmtree (p : Path) : ST World unit := λ w,
  let w := log (EvRmtree p) w in
  let loc := Pathlib.absolute (cwd w) p in
  match disk w !! loc with
  | None => (Raise FileNotFoundError, w)
  | Some File => (Raise NotADirectoryError, w)
  | Some _ =>
      if bool_decide (map_Forall (λ q d, under loc q → d ≠ Unreadable) (disk w))
      then (Ok tt, set_disk (filter (λ qd, ¬ under loc qd.1) (disk w)) w)
      else (Raise PermissionError, w)
  end.

End Rocksdb.

(** ** The store *)

Record Message := { key : bytes; value : bytes }.
Record EventT := { message : Message }.

(** The application object, as far as the store reads it. *)
Record AppT := { tabledir : Path }.

(** The keyword arguments of [Store.__init__]. *)
Record Tuning := {
  kw_max_open_files : Z;
  kw_write_buffer_size : Z;
  kw_max_write_buffer_number : Z;
  kw_target_file_size_base : Z;
  kw_block_cache_size : Z;
  kw_block_cache_compressed_size : Z;
  kw_bloom_filter_size : Z;
}.

(** Their defaults. *)
Definition default_tuning : Tuning := {|
  kw_max_open_files := 300000;
  kw_write_buffer_size := 67108864;
  kw_max_write_buffer_number := 3;
  kw_target_file_size_base := 67108864;
  kw_block_cache_size := 2 * 1024 ^ 3;
  kw_block_cache_compressed_size := 500 * 1024 ^ 2;
  kw_bloom_filter_size := 10;
|}.

(** The attributes of a [Store] object.  [url] is [self.url.path], the only
    component of the URL the class reads; [app] and [table_name] are set by
    the base class from the constructor's arguments. *)
Record Store := {
  url : string;
  app : AppT;
  table_name : string;
  max_open_files : Z;
  write_buffer_size : Z;
  max_write_buffer_number : Z;
  target_file_size_base : Z;
  block_cache_size : Z;
  block_cache_compressed_size : Z;
  bloom_filter_size : Z;
  _db : option Rocksdb.DB;
}.

Definition with_db (d : option Rocksdb.DB) (o : Store) : Store := {|
  url := url o; app := app o; table_name := table_name o;
  max_open_files := max_open_files o;
  write_buffer_size := write_buffer_size o;
  max_write_buffer_number := max_write_buffer_number o;
  target_file_size_base := target_file_size_base o;
  block_cache_size := block_cache_size o;
  block_cache_compressed_size := block_cache_compressed_size o;
  bloom_filter_size := bloom_filter_size o;
  _db := d;
|}.

(** [url / name] (yarl) for a URL whose path is empty, the only kind
    [__init__] extends; such a URL has no host.  The result is given by its
    path: a name that starts with a slash is refused, any other becomes the
    path.  yarl percent-encodes the name and decodes it when the path is
    read; the two cancel out for names without a percent sign and are not
    modelled. *)
Definition url_div (name : string) : Result string :=
  if String.prefix "/" name
  then Raise (ValueError "Appending path starting from slash is forbidden")
  else Ok name.

(** [Store.__init__(url, app, table_name=..., **tuning)] *)
Definition __init__ (url0 : string) (app0 : AppT) (table_name0 : string)
    (kw : Tuning) : Result Store :=
  let mk u := {|
    url := u; app := app0; table_name := table_name0;
    max_open_files := kw_max_open_files kw;
    write_buffer_size := kw_write_buffer_size kw;
    max_write_buffer_number := kw_max_write_buffer_number kw;
    target_file_size_base := kw_target_file_size_base kw;
    block_cache_size := kw_block_cache_size kw;
    block_cache_compressed_size := kw_block_cache_compressed_size kw;
    bloom_filter_size := kw_bloom_filter_size kw;
    _db := None |} in
  if bool_decide (url0 = "")
  then match url_div table_name0 with
       | Ok u => Ok (mk u)
       | Raise e => Raise e
       end
  else Ok (mk url0).

(** What a method runs in: the object and the world around it. *)
Record State := { self : Store; world : Rocksdb.World }.

Abbreviation M := (ST State).

(** A call into the engine or the file system. *)
Definition extern {A} (c : ST Rocksdb.World A) : M A := λ s,
  let '(r, w) := c (world s) in (r, {| self := self s; world := w |}).

(** [self._db = d]: the reference the attribute held is given up. *)
Definition assign_db (d : option Rocksdb.DB) : M unit := λ s,
  (Ok tt,
   {| self := with_db d (self s);
      world := match _db (self s) with
               | Some old => Rocksdb.release old (world s)
               | None => world s
               end |}).

(** Read an attribute of [self]. *)
Definition attr {A} (f : Store → A) : M A := λ s, (Ok (f (self s)), s).

(** Evaluate a property of [self] that may raise. *)
Definition prop {A} (f : Store → Result A) : M A := λ s, (f (self s), s).

(** [os.getcwd()] *)
Definition getcwd : M Path := λ s, (Ok (Rocksdb.cwd (world s)), s).

(** [Store.filename] *)
Definition filename (o : Store) : Result Path :=
  Pathlib.with_suffix (Pathlib.parse (url o)) ".db".

(** [Store.path] *)
Definition path (o : Store) : Result Path :=
  match filename o with
  | Ok f => Ok (Pathlib.truediv (tabledir (app o)) f)
  | Raise e => Raise e
  end.

(** [Store._options] *)
Definition _options (o : Store) : Rocksdb.Options := {|
  Rocksdb.create_if_missing := true;
  Rocksdb.max_open_files := max_open_files o;
  Rocksdb.write_buffer_size := write_buffer_size o;
  Rocksdb.max_write_buffer_number := max_write_buffer_number o;
  Rocksdb.target_file_size_base := target_file_size_base o;
  Rocksdb.table_factory := {|
    Rocksdb.filter_policy := bloom_filter_size o;
    Rocksdb.block_cache := block_cache_size o;
    Rocksdb.block_cache_compressed := block_cache_compressed_size o;
  |};
|}.

(** [Store._open_db].  The engine is handed [str(self.path)]; the model hands
    it the path that string denotes. *)
Definition _open_db : M Rocksdb.DB :=
  p ← prop path;
  o ← attr _options;
  extern (Rocksdb.open p o).

(** [Store.db] *)
Definition db : M Rocksdb.DB :=
  cached ← attr _db;
  match cached with
  | None =>
      h ← _open_db;
      assign_db (Some h);;
      mret h
  | Some h => mret h
  end.

(** [Store.apply_changelog_batch]; the batch is filled before [self.db] is
    evaluated. *)
Definition apply_changelog_batch (batch : list EventT)
    (to_key to_value : bytes → bytes) : M unit :=
  let w := foldl (λ w event,
             w ++ [Rocksdb.WPut (key (message event)) (value (message event))])
           [] batch in
  h ← db;
  extern (Rocksdb.write h w).

(** [Store._get] *)
Definition _get (k : bytes) : M (option bytes) :=
  h ← db; extern (Rocksdb.get h k).

(** [Store._set] *)
Definition _set (k v : bytes) : M unit :=
  h ← db; extern (Rocksdb.put h k v).

(** [Store._del] *)
Definition _del (k : bytes) : M unit :=
  h ← db; extern (Rocksdb.delete h k).

(** [Store._size]; the iterator is a local variable and goes when the
    method returns. *)
Definition _size : M nat :=
  h ← db;
  it ← extern (Rocksdb.iterkeys h);
  let it := Rocksdb.seek_to_first it in
  let n := length (Rocksdb.remaining it) in
  extern (Rocksdb.dispose it);;
  mret n.

(** *** Generators

    [_iterkeys], [_itervalues] and [_iteritems] are generator functions:
    calling one runs nothing of its body and returns a generator object.
    The body starts at the first [next]: it evaluates [self.db], asks the
    engine for an iterator, seeks it to the first entry, and from then on
    hands out the iterator's entries one per [next].  While suspended the
    generator keeps the iterator, hence the database object, alive; it lets
    go of it when the body ends. *)
Inductive GenState (A : Type) :=
| Fresh                                  (* created, body not started *)
| Suspended (it : Rocksdb.Iterator A)    (* inside [yield from it] *)
| Finished.                              (* body ended, or raised *)
Arguments Fresh {A}.
Arguments Suspended {A} it.
Arguments Finished {A}.

Record Generator (A : Type) := {
  make : Rocksdb.DB → ST Rocksdb.World (Rocksdb.Iterator A);  (* [self.db.iter...] *)
  gen_state : GenState A;
}.
Arguments make {A} _.
Arguments gen_state {A} _.

Definition in_state {A} (g : Generator A) (st : GenState A) : Generator A :=
  {| make := make g; gen_state := st |}.

(** One step of [yield from it]. *)
Definition resume {A} (g : Generator A) (it : Rocksdb.Iterator A) (s : State)
  : Result (option A) * Generator A * State :=
  match Rocksdb.next it with
  | Some (x, it') => (Ok (Some x), in_state g (Suspended it'), s)
  | None => (Ok None, in_state g Finished, snd (extern (Rocksdb.dispose it) s))
  end.

(** [next(g)]: the value yielded, or [None] for [StopIteration]; the
    generator as the call leaves it; the state.  A generator whose body
    raised is finished. *)
Definition next_ {A} (g : Generator A) (s : State)
  : Result (option A) * Generator A * State :=
  match gen_state g with
  | Fresh =>
      match (h ← db;
             it ← extern (make g h);
             mret (Rocksdb.seek_to_first it)) s with
      | (Ok it, s') => resume g it s'
      | (Raise e, s') => (Raise e, in_state g Finished, s')
      end
  | Suspended it => resume g it s
  | Finished => (Ok None, g, s)
  end.

(** Up to [n] calls of [next], stopping at [StopIteration]. *)
Fixpoint nexts {A} (n : nat) (g : Generator A) (s : State)
  : Result (list A) * Generator A * State :=
  match n with
  | O => (Ok [], g, s)
  | S n' =>
      match next_ g s with
      | (Ok (Some x), g', s') =>
          match nexts n' g' s' with
          | (Ok l, g'', s'') => (Ok (x :: l), g'', s'')
          | r => r
          end
      | (Ok None, g', s') => (Ok [], g', s')
      | (Raise e, g', s') => (Raise e, g', s')
      end
  end.

(** The entries a suspended generator has still to yield. *)
Definition pending {A} (g : Generator A) : nat :=
  match gen_state g with
  | Suspended it => length (Rocksdb.remaining it)
  | _ => O
  end.

(** [list(g)]: [next] until [StopIteration]. *)
Definition list_of {A} (g : Generator A) : M (list A) := λ s,
  match next_ g s with
  | (Ok (Some x), g', s') =>
      match nexts (S (pending g')) g' s' with
      | (Ok l, _, s'') => (Ok (x :: l), s'')
      | (Raise e, _, s'') => (Raise e, s'')
      end
  | (Ok None, _, s') => (Ok [], s')
  | (Raise e, _, s') => (Raise e, s')
  end.

(** The generator is closed or goes out of existence. *)
Definition close_ {A} (g : Generator A) (s : State) : Generator A * State :=
  match gen_state g with
  | Suspended it => (in_state g Finished, snd (extern (Rocksdb.dispose it) s))
  | _ => (in_state g Finished, s)
  end.

(** [Store._iterkeys] *)
Definition _iterkeys : Generator bytes :=
  {| make := Rocksdb.iterkeys; gen_state := Fresh |}.

(** [Store._itervalues] *)
Definition _itervalues : Generator bytes :=
  {| make := Rocksdb.itervalues; gen_state := Fresh |}.

(** [Store._iteritems] *)
Definition _iteritems : Generator (bytes * bytes) :=
  {| make := Rocksdb.iteritems; gen_state := Fresh |}.

(** [Store._clear] *)
Definition _clear : M unit := raise (NotImplementedError "TODO").

(** [Store.reset_state].  Likewise [rmtree] gets the path itself. *)
Definition reset_state : M unit :=
  assign_db None;;
  suppress FileNotFoundError (
    p ← prop path;
    cwd ← getcwd;
    extern (Rocksdb.rmtree (Pathlib.absolute cwd p))).

Section Contains.
Context (may_exist : gmap bytes bytes → bytes → bool).

(** [Store._contains] *)
Definition _contains (k : bytes) : M bool :=
  h ← db;
  probe ← extern (Rocksdb.key_may_exist may_exist h k);
  if fst (probe : bool * option bytes) then
    v ← extern (Rocksdb.get h k);
    mret (bool_decide (v ≠ None))
  else mret false.

End Contains.

(** ** Vocabulary of the statements *)

(** The directory the store stands on. *)
Definition store_location (s : State) : Result Path :=
  match path (self s) with
  | Ok p => Ok (Pathlib.absolute (Rocksdb.cwd (world s)) p)
  | Raise e => Raise e
  end.

(** The table the store reads and writes: that of its open handle or, while
    the handle is absent, the one its directory holds (the empty one when
    the directory is plain or is not there yet but can be made).  [None]
    when the store is unusable: no valid path, a directory that cannot be
    opened or made, a lock still held by an object of this process, a handle
    on something else or not counted among the live references. *)
Definition contents (s : State) : option (gmap bytes bytes) :=
  match store_location s with
  | Raise _ => None
  | Ok loc =>
      match _db (self s), Rocksdb.handles (world s) !! loc,
            Rocksdb.disk (world s) !! loc with
      | Some h, Some (S _), Some (Rocksdb.Db t) =>
          if decide (Rocksdb.location h = loc) then Some t else None
      | None, None, Some (Rocksdb.Db t) => Some t
      | None, None, Some Rocksdb.Folder => Some ∅
      | None, None, None =>
          if Rocksdb.dir_exists (world s) (Rocksdb.parent loc) then Some ∅ else None
      | _, _, _ => None
      end
  end.

(** The engine calls an access to [self.db] makes in state [s]. *)
Definition open_events (s : State) : list Rocksdb.Event :=
  match _db (self s), path (self s) with
  | None, Ok p => [Rocksdb.EvOpen p (_options (self s))]
  | _, _ => []
  end.

(** The live references once the store holds one on [loc]. *)
Definition hold (loc : Path) (hs : gmap Path nat) : gmap Path nat :=
  match hs !! loc with
  | Some (S _) => hs
  | _ => <[loc := 1%nat]> hs
  end.

(** State [s] once [events] are logged and the directory at [loc] holds
    table [t] behind an open handle. *)
Definition settled (s : State) (events : list Rocksdb.Event) (loc : Path)
    (t : gmap bytes bytes) : State := {|
  self := with_db (Some {| Rocksdb.location := loc |}) (self s);
  world := {|
    Rocksdb.cwd := Rocksdb.cwd (world s);
    Rocksdb.disk := <[loc := Rocksdb.Db t]> (Rocksdb.disk (world s));
    Rocksdb.handles := hold loc (Rocksdb.handles (world s));
    Rocksdb.trace := Rocksdb.trace (world s) ++ events |} |}.

(** Nothing stands in the way of removing the tree at [loc]: there is no
    such path, or it is a directory with nothing in its tree out of the
    process's reach. *)
Definition removable (s : State) (loc : Path) : Prop :=
  match Rocksdb.disk (world s) !! loc with
  | None => True
  | Some Rocksdb.File => False
  | Some _ =>
      map_Forall (λ q d, Rocksdb.under loc q → d ≠ Rocksdb.Unreadable)
                 (Rocksdb.disk (world s))
  end.

#[global] Instance removable_dec s loc : Decision (removable s loc).
Proof.
  unfold removable.
  destruct (Rocksdb.disk (world s) !! loc) as [[]|]; apply _.
Defined.

(** No iterator keeps the database object on [loc] alive: the one reference
    to it, if there is any, is the store's own [_db]. *)
Definition unshared (s : State) (loc : Path) : Prop :=
  match _db (self s) with
  | Some h => Rocksdb.location h = loc
              ∧ Rocksdb.handles (world s) !! loc = Some 1%nat
  | None => Rocksdb.handles (world s) !! loc = None
  end.

#[global] Instance unshared_dec s loc : Decision (unshared s loc).
Proof. unfold unshared. destruct (_db (self s)); apply _. Defined.

(** State [s] with one more live reference to the database object [h]: that
    of an iterator not yet gone. *)
Definition retained (h : Rocksdb.DB) (s : State) : State :=
  {| self := self s; world := Rocksdb.retain h (world s) |}.

(** The iterator over [l] made from [h], standing at index [n]. *)
Definition iterator_at {A} (l : list A) (n : nat) (h : Rocksdb.DB)
  : Rocksdb.Iterator A :=
  {| Rocksdb.snapshot := l; Rocksdb.position := Some n; Rocksdb.owner := h |}.

(** The events logged between two states. *)
Definition logged (s s' : State) : list Rocksdb.Event :=
  drop (length (Rocksdb.trace (world s))) (Rocksdb.trace (world s')).

(** The live references once the store has let go of its handle. *)
Definition forgotten (s : State) : gmap Path nat :=
  match _db (self s) with
  | Some old => Rocksdb.handles (Rocksdb.release old (world s))
  | None => Rocksdb.handles (world s)
  end.

(** State [s] after a reset that found nothing in its way: no handle, and
    the tree at [loc], if there was one, gone. *)
Definition after_reset (s : State) (loc : Path) : State := {|
  self := with_db None (self s);
  world := {|
    Rocksdb.cwd := Rocksdb.cwd (world s);
    Rocksdb.disk :=
      match Rocksdb.disk (world s) !! loc with
      | Some _ => filter (λ qd, ¬ Rocksdb.under loc qd.1) (Rocksdb.disk (world s))
      | None => Rocksdb.disk (world s)
      end;
    Rocksdb.handles := forgotten s;
    Rocksdb.trace := Rocksdb.trace (world s) ++ [Rocksdb.EvRmtree loc] |} |}.

(** The write batch the specification describes: both transforms applied to
    every record. *)
Definition transformed_batch (to_key to_value : bytes → bytes)
    (batch : list EventT) : Rocksdb.WriteBatch :=
  map (λ e, Rocksdb.WPut (to_key (key (message e))) (to_value (value (message e))))
      batch.

(** The write batch of the records as they are. *)
Definition raw_batch (batch : list EventT) : Rocksdb.WriteBatch :=
  map (λ e, Rocksdb.WPut (key (message e)) (value (message e))) batch.

(** [for (k, v) in kvs: store._set(k, v)] *)
Fixpoint set_all (kvs : list (bytes * bytes)) : M unit :=
  match kvs with
  | [] => mret tt
  | (k, v) :: kvs' => _set k v;; set_all kvs'
  end.

(** The value of the last record of [batch] that carries key [k]. *)
Fixpoint last_write (k : bytes) (batch : list EventT) : option bytes :=
  match batch with
  | [] => None
  | e :: batch' =>
      match last_write k batch' with
      | Some v => Some v
      | None => if decide (key (message e) = k) then Some (value (message e)) else None
      end
  end.

(** ** A running example

    The table ["orders"] of an application that keeps its tables under
    [/var/faust/tables], with the default tuning and no directory on disk
    yet. *)

Definition sample_app : AppT := {| tabledir := Pathlib.parse "/var/faust/tables" |}.

Definition sample_store : Store := {|
  url := "orders"; app := sample_app; table_name := "orders";
  max_open_files := 300000;
  write_buffer_size := 67108864;
  max_write_buffer_number := 3;
  target_file_size_base := 67108864;
  block_cache_size := 2147483648;
  block_cache_compressed_size := 524288000;
  bloom_filter_size := 10;
  _db := None |}.

Definition sample_world : Rocksdb.World := {|
  Rocksdb.cwd := Pathlib.parse "/srv/app";
  Rocksdb.disk := {[ Pathlib.parse "/var/faust/tables" := Rocksdb.Folder ]};
  Rocksdb.handles := ∅;
  Rocksdb.trace := [] |}.

Definition sample_state : State := {| self := sample_store; world := sample_world |}.

(** The same store when the engine cannot take the lock of its directory. *)
Definition locked_state : State := {|
  self := sample_store;
  world := {|
    Rocksdb.cwd := Pathlib.parse "/srv/app";
    Rocksdb.disk :=
      <[Pathlib.parse "/var/faust/tables/orders.db"
        := Rocksdb.Unopenable "IO error: lock hold by current process"]>
        (Rocksdb.disk sample_world);
    Rocksdb.handles := ∅;
    Rocksdb.trace := [] |} |}.

Definition record (k v : bytes) : EventT := {| message := {| key := k; value := v |} |}.

(** b"a", b"b", b"c", b"z" and b"1", b"2", b"3" *)
Definition key_a : bytes := [Byte.x61].
Definition key_b : bytes := [Byte.x62].
Definition key_c : bytes := [Byte.x63].
Definition key_z : bytes := [Byte.x7a].
Definition val_1 : bytes := [Byte.x31].
Definition val_2 : bytes := [Byte.x32].
Definition val_3 : bytes := [Byte.x33].

Definition sample_batch : list EventT :=
  [record key_a val_1; record key_c val_3; record key_b val_2].

(** A probe that is exact except for a false positive on b"z". *)
Definition sample_probe (t : gmap bytes bytes) (k : bytes) : bool :=
  bool_decide (is_Some (t !! k)) || bool_decide (k = key_z).

(** A table name that is one path component and has neither a dot nor a
    percent sign in it. *)
Definition plain_name (n : string) : bool :=
  bool_decide (n ≠ "") && negb (Pathlib.contains "/" n)
  && negb (Pathlib.contains "." n) && negb (Pathlib.contains "%" n).

(** The sample store after b"a", b"c", b"b" were set to b"1", b"3", b"2", in
    that order. *)
Definition populated_state : State :=
  snd (set_all [(key_a, val_1); (key_c, val_3); (key_b, val_2)] sample_state).

(** Transforms that are not the identity: prefix the key with b"z", replace
    the value by b"3". *)
Definition sample_to_key (k : bytes) : bytes := key_z ++ k.
Definition sample_to_value (v : bytes) : bytes := val_3.

(** ** Calls, and their reading on a dictionary *)

(** A call of one of the store's data methods, with its arguments; an
    iteration is the call and the draining of the generator it returns. *)
Inductive Call :=
| CGet (k : bytes)
| CSet (k v : bytes)
| CDel (k : bytes)
| CContains (k : bytes)
| CSize
| CIterkeys
| CItervalues
| CIteritems
| CApply (batch : list EventT) (to_key to_value : bytes → bytes).

(** What a call returns. *)
Inductive Answer :=
| ABytes (v : option bytes)          (* bytes, or None *)
| ANone                              (* nothing *)
| ABool (b : bool)
| AInt (n : nat)
| AList (l : list bytes)
| AItems (l : list (bytes * bytes)).

Section Calls.
Context (may_exist : gmap bytes bytes → bytes → bool).

(** Make the call on the store. *)
Definition call (c : Call) : M Answer :=
  match c with
  | CGet k => v ← _get k; mret (ABytes v)
  | CSet k v => _set k v;; mret ANone
  | CDel k => _del k;; mret ANone
  | CContains k => b ← _contains may_exist k; mret (ABool b)
  | CSize => n ← _size; mret (AInt n)
  | CIterkeys => l ← list_of _iterkeys; mret (AList l)
  | CItervalues => l ← list_of _itervalues; mret (AList l)
  | CIteritems => l ← list_of _iteritems; mret (AItems l)
  | CApply batch to_key to_value =>
      apply_changelog_batch batch to_key to_value;; mret ANone
  end.

(** Make the calls one after the other, collecting what they return. *)
Fixpoint calls (cs : list Call) : M (list Answer) :=
  match cs with
  | [] => mret []
  | c :: cs' => a ← call c; rest ← calls cs'; mret (a :: rest)
  end.

(** The engine calls a call makes on an open store that holds table [t]. *)
Definition call_events (c : Call) (t : gmap bytes bytes) : list Rocksdb.Event :=
  match c with
  | CGet k => [Rocksdb.EvGet k]
  | CSet k v => [Rocksdb.EvPut k v]
  | CDel k => [Rocksdb.EvDelete k]
  | CContains k =>
      if may_exist t k then [Rocksdb.EvKeyMayExist k; Rocksdb.EvGet k]
      else [Rocksdb.EvKeyMayExist k]
  | CSize => [Rocksdb.EvIter Rocksdb.Keys]
  | CIterkeys => [Rocksdb.EvIter Rocksdb.Keys]
  | CItervalues => [Rocksdb.EvIter Rocksdb.Values]
  | CIteritems => [Rocksdb.EvIter Rocksdb.Items]
  | CApply batch _ _ => [Rocksdb.EvWrite (raw_batch batch)]
  end.

End Calls.

(** The same call on a dictionary [t]: what it returns and the dictionary
    after it. *)
Definition dict_call (c : Call) (t : gmap bytes bytes) : Answer * gmap bytes bytes :=
  match c with
  | CGet k => (ABytes (t !! k), t)
  | CSet k v => (ANone, <[k := v]> t)
  | CDel k => (ANone, delete k t)
  | CContains k => (ABool (bool_decide (is_Some (t !! k))), t)
  | CSize => (AInt (size t), t)
  | CIterkeys => (AList (Rocksdb.entries t).*1, t)
  | CItervalues => (AList (Rocksdb.entries t).*2, t)
  | CIteritems => (AItems (Rocksdb.entries t), t)
  | CApply batch _ _ =>
      (ANone, foldl (λ t e, <[key (message e) := value (message e)]> t) t batch)
  end.

Fixpoint dict_calls (cs : list Call) (t : gmap bytes bytes)
  : list Answer * gmap bytes bytes :=
  match cs with
  | [] => ([], t)
  | c :: cs' =>
      let '(a, t') := dict_call c t in
      let '(rest, t'') := dict_calls cs' t' in
      (a :: rest, t'')
  end.

(** The engine calls of a sequence of calls that starts on table [t]. *)
Fixpoint calls_events (may_exist : gmap bytes bytes → bytes → bool)
    (cs : list Call) (t : gmap bytes bytes) : list Rocksdb.Event :=
  match cs with
  | [] => []
  | c :: cs' => call_events may_exist c t ++ calls_events may_exist cs' (dict_call c t).2
  end.

(** The calls that only read. *)
Definition is_read (c : Call) : bool :=
  match c with
  | CSet _ _ | CDel _ | CApply _ _ _ => false
  | _ => true
  end.

Definition is_open_event (e : Rocksdb.Event) : bool :=
  match e with
  | Rocksdb.EvOpen _ _ => true
  | _ => false
  end.

(** A store made with neither a URL path nor a table name: its path has no
    name to put the suffix on. *)
Definition nameless_state : State := {|
  self := {|
    url := ""; app := sample_app; table_name := "";
    max_open_files := 300000;
    write_buffer_size := 67108864;
    max_write_buffer_number := 3;
    target_file_size_base := 67108864;
    block_cache_size := 2147483648;
    block_cache_compressed_size := 524288000;
    bloom_filter_size := 10;
    _db := None |};
  world := sample_world |}.

(** The table of [populated_state]. *)
Definition populated_table : gmap bytes bytes :=
  <[key_b := val_2]> (<[key_c := val_3]> (<[key_a := val_1]> ∅)).

(** The sample store when its directory is out of the process's reach, and
    when the tables directory itself is missing. *)
Definition unreadable_state : State := {|
  self := sample_store;
  world := {|
    Rocksdb.cwd := Pathlib.parse "/srv/app";
    Rocksdb.disk :=
      <[Pathlib.parse "/var/faust/tables/orders.db" := Rocksdb.Unreadable]>
        (Rocksdb.disk sample_world);
    Rocksdb.handles := ∅;
    Rocksdb.trace := [] |} |}.

Definition orphan_state : State := {|
  self := sample_store;
  world := {|
    Rocksdb.cwd := Pathlib.parse "/srv/app";
    Rocksdb.disk := ∅;
    Rocksdb.handles := ∅;
    Rocksdb.trace := [] |} |}.

(** [populated_state] once the first key has been drawn from a keys
    generator that is still alive. *)
Definition iterating_state : State := snd (next_ _iterkeys populated_state).

(** A store made with the URL path [/data/orders]. *)
Definition rooted_store : Store := {|
  url := "/data/orders"; app := sample_app; table_name := "orders";
  max_open_files := 300000;
  write_buffer_size := 67108864;
  max_write_buffer_number := 3;
  target_file_size_base := 67108864;
  block_cache_size := 2147483648;
  block_cache_compressed_size := 524288000;
  bloom_filter_size := 10;
  _db := None |}.

(** * Properties *)

(** Disequality of values with decidable equality, by evaluation. *)
Lemma neq_by_decide `{EqDecision A} (x y : A) : bool_decide (x = y) = false → x ≠ y.
Proof. apply bool_decide_eq_false_1. Qed.

(** ** The state monad *)

Lemma bind_ok {S A B} (m : ST S A) (f : A → ST S B) s a s' :
  m s = (Ok a, s') → (m ≫= f) s = f a s'.
Proof. intros H. unfold mbind, ST_bind. by rewrite H. Qed.

Lemma bind_raise {S A B} (m : ST S A) (f : A → ST S B) s e s' :
  m s = (Raise e, s') → (m ≫= f) s = (Raise e, s').
Proof. intros H. unfold mbind, ST_bind. by rewrite H. Qed.

(** ** The lazily opened handle *)

Lemma with_db_idem d d' o : with_db d (with_db d' o) = with_db d o.
Proof. by destruct o. Qed.

Lemma with_db_id o : with_db (_db o) o = o.
Proof. by destruct o. Qed.

Lemma path_with_db d o : path (with_db d o) = path o.
Proof. by destruct o. Qed.

Lemma options_with_db d o : _options (with_db d o) = _options o.
Proof. by destruct o. Qed.

(** Opening a directory on which no object of the process is alive: the
    table found there, or an empty one made. *)
Lemma open_ok p o w t :
  let loc := Pathlib.absolute (Rocksdb.cwd w) p in
  Rocksdb.create_if_missing o = true →
  Rocksdb.handles w !! loc = None →
  match Rocksdb.disk w !! loc with
  | Some (Rocksdb.Db t') => t = t'
  | Some Rocksdb.Folder => t = ∅
  | None => t = ∅ ∧ Rocksdb.dir_exists w (Rocksdb.parent loc) = true
  | _ => False
  end →
  Rocksdb.open p o w
  = (Ok {| Rocksdb.location := loc |},
     {| Rocksdb.cwd := Rocksdb.cwd w;
        Rocksdb.disk := <[loc := Rocksdb.Db t]> (Rocksdb.disk w);
        Rocksdb.handles := <[loc := 1%nat]> (Rocksdb.handles w);
        Rocksdb.trace := Rocksdb.trace w ++ [Rocksdb.EvOpen p o] |}).
Proof.
  intros loc Ho Hh Hd. unfold Rocksdb.open. cbn [Rocksdb.log Rocksdb.cwd Rocksdb.disk Rocksdb.handles].
  fold loc. rewrite Hh, Ho.
  rewrite bool_decide_eq_false_2 by (by intros [? ?]).
  destruct (Rocksdb.disk w !! loc) as [[t'|c| | |]|] eqn:Hd'; try done.
  - subst t'. unfold Rocksdb.set_handles, Rocksdb.set_disk; simpl.
    by rewrite (insert_id (Rocksdb.disk w)).
  - by subst t.
  - destruct Hd as [-> Hd].
    replace (Rocksdb.dir_exists _ (Rocksdb.parent loc)) with true; done.
Qed.

(** In a usable state the handle is obtained, opening the engine if it was
    not open; the state after is [settled] on the same table. *)
Lemma db_spec s t :
  contents s = Some t →
  ∃ loc, store_location s = Ok loc ∧
         db s = (Ok {| Rocksdb.location := loc |}, settled s (open_events s) loc t).
Proof.
  unfold contents, store_location, open_events.
  destruct s as [o w]; simpl.
  destruct (path o) as [p|e] eqn:Hp; [|done].
  set (loc := Pathlib.absolute (Rocksdb.cwd w) p).
  intros H. exists loc. split; [done|].
  destruct (_db o) as [[hl]|] eqn:Hdb.
  - unfold db, attr, settled, mbind, ST_bind, mret, ST_ret; simpl. rewrite Hdb.
    destruct (Rocksdb.handles w !! loc) as [[|n]|] eqn:Hh; try done.
    destruct (Rocksdb.disk w !! loc) as [[t'|c| | |]|] eqn:Hd; try done.
    simpl in H. destruct (decide (hl = loc)) as [->|]; [|done].
    simplify_eq. rewrite (insert_id (Rocksdb.disk w)) by done. rewrite app_nil_r.
    unfold hold. rewrite Hh.
    f_equal. f_equal; [|by destruct w].
    rewrite <- Hdb. apply eq_sym, with_db_id.
  - destruct (Rocksdb.handles w !! loc) as [n|] eqn:Hh; [by destruct n|].
    unfold db, _open_db, attr, prop, extern, assign_db,
      mbind, ST_bind, mret, ST_ret; simpl. rewrite Hdb. cbn [self world]. rewrite Hp.
    rewrite (open_ok p (_options o) w t); [|done|done|].
    + cbn [self world]. rewrite Hdb. unfold settled, hold; simpl. fold loc. by rewrite Hh.
    + fold loc.
      destruct (Rocksdb.disk w !! loc) as [[t'|c| | |]|] eqn:Hd; try done;
        try by simplify_eq.
      destruct (Rocksdb.dir_exists _ _); by simplify_eq.
Qed.

Lemma db_cached s h : _db (self s) = Some h → db s = (Ok h, s).
Proof.
  intros H. unfold db, attr, mbind, ST_bind, mret, ST_ret. by rewrite H.
Qed.

Lemma hold_idem loc hs : hold loc (hold loc hs) = hold loc hs.
Proof.
  unfold hold. destruct (hs !! loc) as [[|n]|] eqn:Hh;
    rewrite ?Hh, ?lookup_insert_eq; done.
Qed.

Lemma settled_settled s ev1 ev2 loc t1 t2 :
  settled (settled s ev1 loc t1) ev2 loc t2 = settled s (ev1 ++ ev2) loc t2.
Proof.
  unfold settled; simpl.
  by rewrite with_db_idem, insert_insert_eq, app_assoc, hold_idem.
Qed.

Lemma hold_lookup loc hs : ∃ n, hold loc hs !! loc = Some (S n).
Proof.
  unfold hold. destruct (hs !! loc) as [[|n]|] eqn:Hh;
    rewrite ?Hh, ?lookup_insert_eq; eauto.
Qed.

Lemma store_location_settled s ev loc t :
  store_location (settled s ev loc t) = store_location s.
Proof. unfold store_location, settled; simpl. by rewrite path_with_db. Qed.

Lemma contents_settled s ev loc t :
  store_location s = Ok loc → contents (settled s ev loc t) = Some t.
Proof.
  intros H. unfold contents. rewrite store_location_settled, H.
  unfold settled; simpl. rewrite lookup_insert_eq.
  destruct (hold_lookup loc (Rocksdb.handles (world s))) as [n ->].
  destruct (self s); simpl. by rewrite decide_True.
Qed.

Lemma open_events_settled s ev loc t : open_events (settled s ev loc t) = [].
Proof. unfold open_events, settled. by destruct (self s). Qed.

(** *** Engine calls on a settled state *)

Ltac engine_call :=
  unfold extern, settled, Rocksdb.get, Rocksdb.put, Rocksdb.delete,
    Rocksdb.write, Rocksdb.iterkeys, Rocksdb.itervalues, Rocksdb.iteritems,
    Rocksdb.key_may_exist, Rocksdb.read_table, Rocksdb.on_table,
    Rocksdb.table_at, Rocksdb.set_disk, Rocksdb.log; simpl;
  rewrite lookup_insert_eq; simpl;
  rewrite ?insert_insert_eq, <- ?app_assoc; reflexivity.

Lemma get_settled s ev loc t k :
  extern (Rocksdb.get {| Rocksdb.location := loc |} k) (settled s ev loc t)
  = (Ok (t !! k), settled s (ev ++ [Rocksdb.EvGet k]) loc t).
Proof. engine_call. Qed.

Lemma put_settled s ev loc t k v :
  extern (Rocksdb.put {| Rocksdb.location := loc |} k v) (settled s ev loc t)
  = (Ok tt, settled s (ev ++ [Rocksdb.EvPut k v]) loc (<[k := v]> t)).
Proof. engine_call. Qed.

Lemma delete_settled s ev loc t k :
  extern (Rocksdb.delete {| Rocksdb.location := loc |} k) (settled s ev loc t)
  = (Ok tt, settled s (ev ++ [Rocksdb.EvDelete k]) loc (delete k t)).
Proof. engine_call. Qed.

Lemma write_settled s ev loc t b :
  extern (Rocksdb.write {| Rocksdb.location := loc |} b) (settled s ev loc t)
  = (Ok tt, settled s (ev ++ [Rocksdb.EvWrite b]) loc (foldl Rocksdb.apply_op t b)).
Proof. engine_call. Qed.

Lemma key_may_exist_settled may_exist s ev loc t k :
  extern (Rocksdb.key_may_exist may_exist {| Rocksdb.location := loc |} k)
         (settled s ev loc t)
  = (Ok (may_exist t k, None), settled s (ev ++ [Rocksdb.EvKeyMayExist k]) loc t).
Proof. engine_call. Qed.

Lemma release_retain h w n :
  Rocksdb.handles w !! Rocksdb.location h = Some (S n) →
  Rocksdb.release h (Rocksdb.retain h w) = w.
Proof.
  intros H. unfold Rocksdb.release, Rocksdb.retain, Rocksdb.set_handles; simpl.
  rewrite H, lookup_insert_eq; simpl.
  rewrite insert_insert_eq, insert_id by done. by destruct w.
Qed.

Lemma new_iterator_settled {A} (kind : Rocksdb.IterKind) (view : gmap bytes bytes → list A) s ev loc t :
  extern (Rocksdb.new_iterator kind view {| Rocksdb.location := loc |})
         (settled s ev loc t)
  = (Ok {| Rocksdb.snapshot := view t; Rocksdb.position := None;
           Rocksdb.owner := {| Rocksdb.location := loc |} |},
     retained {| Rocksdb.location := loc |}
              (settled s (ev ++ [Rocksdb.EvIter kind]) loc t)).
Proof.
  unfold extern, settled, retained, Rocksdb.new_iterator, Rocksdb.table_at,
    Rocksdb.retain, Rocksdb.set_handles, Rocksdb.log; simpl.
  rewrite lookup_insert_eq; simpl. by rewrite <- app_assoc.
Qed.

Lemma dispose_retained {A} (it : Rocksdb.Iterator A) s ev loc t :
  Rocksdb.owner it = {| Rocksdb.location := loc |} →
  extern (Rocksdb.dispose it) (retained {| Rocksdb.location := loc |} (settled s ev loc t))
  = (Ok tt, settled s ev loc t).
Proof.
  intros Ho. unfold extern, Rocksdb.dispose, retained; simpl. rewrite Ho.
  destruct (hold_lookup loc (Rocksdb.handles (world s))) as [n Hn].
  by rewrite (release_retain _ _ n).
Qed.

Lemma release_retained s ev loc t :
  let h := {| Rocksdb.location := loc |} in
  {| self := self (retained h (settled s ev loc t));
     world := Rocksdb.release h (world (retained h (settled s ev loc t))) |}
  = settled s ev loc t.
Proof.
  intros h. unfold retained; cbn [self world].
  destruct (hold_lookup loc (Rocksdb.handles (world s))) as [n Hn].
  by rewrite (release_retain _ _ n).
Qed.

(** *** Generators *)

Lemma remaining_iterator_at {A} (l : list A) n h :
  Rocksdb.remaining (iterator_at l n h) = drop n l.
Proof. done. Qed.

(** What [next] does on a suspended generator. *)
Lemma next_suspended {A} (g : Generator A) (l : list A) n h s :
  next_ (in_state g (Suspended (iterator_at l n h))) s
  = match l !! n with
    | Some x => (Ok (Some x), in_state g (Suspended (iterator_at l (S n) h)), s)
    | None => (Ok None, in_state g Finished,
               {| self := self s; world := Rocksdb.release h (world s) |})
    end.
Proof.
  unfold next_, resume, Rocksdb.next; simpl.
  by destruct (l !! n).
Qed.

(** [n] calls of [next] on a suspended generator: the next [n] entries while
    there are that many, with nothing done to the state; otherwise what is
    left, and the generator finishes and lets go of its iterator. *)
Lemma nexts_suspended {A} (g : Generator A) (l : list A) h s n i :
  nexts n (in_state g (Suspended (iterator_at l i h))) s
  = if decide (n ≤ length (drop i l))%nat
    then (Ok (take n (drop i l)),
          in_state g (Suspended (iterator_at l (i + n) h)), s)
    else (Ok (drop i l), in_state g Finished,
          {| self := self s; world := Rocksdb.release h (world s) |}).
Proof.
  revert i. induction n as [|n IH]; intros i.
  - rewrite decide_True by lia. simpl. by rewrite Nat.add_0_r.
  - cbn [nexts]. rewrite next_suspended.
    destruct (l !! i) as [x|] eqn:Hx.
    + change (in_state (in_state g (Suspended (iterator_at l i h)))
                       (Suspended (iterator_at l (S i) h)))
        with (in_state g (Suspended (iterator_at l (S i) h))).
      rewrite IH. rewrite (drop_S l x i Hx). simpl.
      destruct (decide (n ≤ length (drop (S i) l))%nat).
      * rewrite decide_True by lia. by rewrite Nat.add_succ_r.
      * by rewrite decide_False by lia.
    + apply lookup_ge_None in Hx. by rewrite drop_ge by done.
Qed.

Lemma nexts_finished {A} (g : Generator A) s n :
  gen_state g = Finished → nexts n g s = (Ok [], g, s).
Proof.
  intros Hg. destruct n as [|n]; [done|].
  cbn [nexts]. unfold next_. by rewrite Hg.
Qed.

Lemma logged_same s s' :
  Rocksdb.trace (world s') = Rocksdb.trace (world s) → logged s s' = [].
Proof. intros H. unfold logged. rewrite H. by apply drop_ge. Qed.

Lemma logged_app s s' evs :
  Rocksdb.trace (world s') = Rocksdb.trace (world s) ++ evs → logged s s' = evs.
Proof. intros H. unfold logged. rewrite H. apply drop_app_length. Qed.

(** *** The methods, in a usable state

    Each method returns, leaves the state settled on the table it produced,
    and logs the opening (if any) followed by its own engine calls. *)

Section Methods.
Context (s : State) (t : gmap bytes bytes) (loc : Path).
Hypothesis Hcontents : contents s = Some t.
Hypothesis Hloc : store_location s = Ok loc.

Lemma db_at :
  db s = (Ok {| Rocksdb.location := loc |}, settled s (open_events s) loc t).
Proof.
  destruct (db_spec s t Hcontents) as (loc' & Hl & Hdb).
  rewrite Hloc in Hl. by simplify_eq.
Qed.

Lemma _get_spec k :
  _get k s = (Ok (t !! k), settled s (open_events s ++ [Rocksdb.EvGet k]) loc t).
Proof. unfold _get. rewrite (bind_ok _ _ _ _ _ db_at). apply get_settled. Qed.

Lemma _set_spec k v :
  _set k v s
  = (Ok tt, settled s (open_events s ++ [Rocksdb.EvPut k v]) loc (<[k := v]> t)).
Proof. unfold _set. rewrite (bind_ok _ _ _ _ _ db_at). apply put_settled. Qed.

Lemma _del_spec k :
  _del k s
  = (Ok tt, settled s (open_events s ++ [Rocksdb.EvDelete k]) loc (delete k t)).
Proof. unfold _del. rewrite (bind_ok _ _ _ _ _ db_at). apply delete_settled. Qed.

(** The first [next] of a fresh generator: the handle is obtained, the
    iterator made and sought, and its first entry, if any, handed out. *)
Lemma next_fresh {A} (g : Generator A) (kind : Rocksdb.IterKind) (view : gmap bytes bytes → list A) :
  gen_state g = Fresh →
  make g = Rocksdb.new_iterator kind view →
  next_ g s
  = next_ (in_state g (Suspended (iterator_at (view t) 0 {| Rocksdb.location := loc |})))
          (retained {| Rocksdb.location := loc |}
             (settled s (open_events s ++ [Rocksdb.EvIter kind]) loc t)).
Proof.
  intros Hg Hm. unfold next_ at 1. rewrite Hg.
  rewrite (bind_ok _ _ _ _ _ db_at), Hm.
  by rewrite (bind_ok _ _ _ _ _ (new_iterator_settled _ _ _ _ _ _)).
Qed.

(** Draining a fresh generator. *)
Lemma list_of_spec {A} (g : Generator A) (kind : Rocksdb.IterKind) (view : gmap bytes bytes → list A) :
  gen_state g = Fresh →
  make g = Rocksdb.new_iterator kind view →
  list_of g s
  = (Ok (view t), settled s (open_events s ++ [Rocksdb.EvIter kind]) loc t).
Proof.
  intros Hg Hm. unfold list_of. rewrite (next_fresh g kind view Hg Hm).
  rewrite next_suspended.
  destruct (view t) as [|x l] eqn:Hv; cbn [lookup list_lookup].
  - by rewrite release_retained.
  - unfold pending. cbn [gen_state in_state]. rewrite remaining_iterator_at.
    rewrite nexts_suspended.
    rewrite decide_False by lia.
    by rewrite release_retained.
Qed.

(** [n] calls of [next] on a fresh generator. *)
Lemma nexts_fresh {A} (g : Generator A) (kind : Rocksdb.IterKind)
    (view : gmap bytes bytes → list A) n :
  gen_state g = Fresh →
  make g = Rocksdb.new_iterator kind view →
  let h := {| Rocksdb.location := loc |} in
  let s' := settled s (open_events s ++ [Rocksdb.EvIter kind]) loc t in
  nexts (S n) g s
  = if decide (S n ≤ length (view t))%nat
    then (Ok (take (S n) (view t)),
          in_state g (Suspended (iterator_at (view t) (S n) h)), retained h s')
    else (Ok (view t), in_state g Finished, s').
Proof.
  intros Hg Hm h s'. subst h s'.
  cbn [nexts]. rewrite (next_fresh g kind view Hg Hm).
  rewrite next_suspended.
  destruct (view t) as [|x l] eqn:Hv; cbn [lookup list_lookup].
  - rewrite decide_False by (simpl; lia). by rewrite release_retained.
  - change (in_state (in_state g (Suspended (iterator_at (x :: l) 0 ?h)))
                     (Suspended (iterator_at (x :: l) 1 ?h)))
      with (in_state g (Suspended (iterator_at (x :: l) 1 h))).
    rewrite nexts_suspended. cbn [drop length take].
    rewrite !drop_0, release_retained.
    destruct (decide (n ≤ length l)%nat).
    + by rewrite decide_True by lia.
    + by rewrite decide_False by lia.
Qed.

Lemma _iterkeys_spec :
  list_of _iterkeys s
  = (Ok (Rocksdb.entries t).*1,
     settled s (open_events s ++ [Rocksdb.EvIter Rocksdb.Keys]) loc t).
Proof.
  exact (list_of_spec _iterkeys Rocksdb.Keys (λ t, (Rocksdb.entries t).*1)
           eq_refl eq_refl).
Qed.

Lemma _itervalues_spec :
  list_of _itervalues s
  = (Ok (Rocksdb.entries t).*2,
     settled s (open_events s ++ [Rocksdb.EvIter Rocksdb.Values]) loc t).
Proof.
  exact (list_of_spec _itervalues Rocksdb.Values (λ t, (Rocksdb.entries t).*2)
           eq_refl eq_refl).
Qed.

Lemma _iteritems_spec :
  list_of _iteritems s
  = (Ok (Rocksdb.entries t),
     settled s (open_events s ++ [Rocksdb.EvIter Rocksdb.Items]) loc t).
Proof.
  exact (list_of_spec _iteritems Rocksdb.Items Rocksdb.entries eq_refl eq_refl).
Qed.

Lemma _size_spec :
  _size s
  = (Ok (length (Rocksdb.entries t)),
     settled s (open_events s ++ [Rocksdb.EvIter Rocksdb.Keys]) loc t).
Proof.
  unfold _size. rewrite (bind_ok _ _ _ _ _ db_at).
  unfold Rocksdb.iterkeys.
  rewrite (bind_ok _ _ _ _ _ (new_iterator_settled _ _ _ _ _ _)).
  cbv zeta.
  erewrite bind_ok; [|by apply dispose_retained].
  unfold mret, ST_ret, Rocksdb.remaining; simpl.
  do 2 f_equal. apply length_fmap.
Qed.

End Methods.

Lemma usable_location s t :
  contents s = Some t → ∃ loc, store_location s = Ok loc.
Proof.
  unfold contents. destruct (store_location s) as [loc|]; [eauto|done].
Qed.

(** ** The order of iteration *)

#[global] Instance item_le_total : Total Rocksdb.item_le.
Proof.
  intros x y. unfold Rocksdb.item_le.
  destruct (decide (lexico (y.1) (x.1))) as [H|H]; [right|by left].
  intros H'. apply (irreflexivity lexico (x.1)). by trans (y.1).
Qed.

#[global] Instance item_le_trans : Transitive Rocksdb.item_le.
Proof.
  intros x y z Hxy Hyz Hzx. unfold Rocksdb.item_le in *.
  destruct (trichotomy lexico (x.1) (y.1)) as [H|[H|H]].
  - apply Hyz. by trans (x.1).
  - apply Hyz. by rewrite <- H.
  - by apply Hxy.
Qed.

Lemma entries_perm t : Rocksdb.entries t ≡ₚ map_to_list t.
Proof. apply merge_sort_Permutation. Qed.

Lemma elem_of_entries t k v : (k, v) ∈ Rocksdb.entries t ↔ t !! k = Some v.
Proof. rewrite entries_perm. apply elem_of_map_to_list. Qed.

Lemma elem_of_entries_keys t k :
  k ∈ (Rocksdb.entries t).*1 ↔ is_Some (t !! k).
Proof.
  rewrite list_elem_of_fmap. split.
  - intros ([k' v] & -> & H). apply elem_of_entries in H. eauto.
  - intros [v H]. exists (k, v). split; [done|]. by apply elem_of_entries.
Qed.

Lemma entries_keys_nodup t : NoDup (Rocksdb.entries t).*1.
Proof. rewrite entries_perm. apply NoDup_fst_map_to_list. Qed.

(** Ascending without repetition is strictly ascending. *)
Lemma strictly_sorted (l : list (bytes * bytes)) :
  StronglySorted Rocksdb.item_le l → NoDup l.*1 → StronglySorted lexico l.*1.
Proof.
  induction 1 as [|x l Hl IH Hx]; simpl; intros Hnd; [constructor|].
  apply NoDup_cons in Hnd as [Hnotin Hnd].
  constructor; [by apply IH|].
  apply Forall_fmap, Forall_forall. intros y Hy; simpl.
  rewrite Forall_forall in Hx. specialize (Hx y Hy). unfold Rocksdb.item_le in Hx.
  destruct (trichotomy lexico (x.1) (y.1)) as [H|[H|H]]; [done| |done].
  destruct Hnotin. rewrite H. apply list_elem_of_fmap. eauto.
Qed.

Lemma entries_keys_sorted t : StronglySorted lexico (Rocksdb.entries t).*1.
Proof.
  apply strictly_sorted; [|apply entries_keys_nodup].
  apply StronglySorted_merge_sort; apply _.
Qed.

(** ** Write batches *)

Lemma batch_filled (batch : list EventT) acc :
  foldl (λ w event,
           w ++ [Rocksdb.WPut (key (message event)) (value (message event))])
        acc batch
  = acc ++ raw_batch batch.
Proof.
  revert acc. induction batch as [|e batch IH]; intros acc; simpl.
  - by rewrite app_nil_r.
  - rewrite IH. by rewrite <- app_assoc.
Qed.

Lemma lookup_apply_raw_batch batch t k :
  foldl Rocksdb.apply_op t (raw_batch batch) !! k
  = match last_write k batch with
    | Some v => Some v
    | None => t !! k
    end.
Proof.
  revert t. induction batch as [|e batch IH]; intros t; simpl; [done|].
  rewrite IH. destruct (last_write k batch); [done|].
  destruct (decide (key (message e) = k)) as [<-|Hne].
  - by rewrite lookup_insert_eq.
  - by rewrite lookup_insert_ne.
Qed.

Lemma apply_raw_batch_twice batch t :
  foldl Rocksdb.apply_op (foldl Rocksdb.apply_op t (raw_batch batch)) (raw_batch batch)
  = foldl Rocksdb.apply_op t (raw_batch batch).
Proof.
  apply map_eq. intros k. rewrite !lookup_apply_raw_batch.
  by destruct (last_write k batch).
Qed.

Lemma apply_changelog_batch_spec batch to_key to_value s t loc :
  contents s = Some t → store_location s = Ok loc →
  apply_changelog_batch batch to_key to_value s
  = (Ok tt, settled s (open_events s ++ [Rocksdb.EvWrite (raw_batch batch)]) loc
                    (foldl Rocksdb.apply_op t (raw_batch batch))).
Proof.
  intros Hc Hl. unfold apply_changelog_batch.
  rewrite (bind_ok _ _ _ _ _ (db_at s t loc Hc Hl)).
  rewrite batch_filled. apply write_settled.
Qed.

(** ** Point access *)

(** C6. Round trip: in any usable state, [_set k v] returns, and [_get k]
    right after it returns [v]. *)
Theorem set_then_get s t k v :
  contents s = Some t →
  ∃ s1 s2, _set k v s = (Ok tt, s1) ∧ _get k s1 = (Ok (Some v), s2).
Proof.
  intros Hc. destruct (usable_location s t Hc) as [loc Hl].
  eexists _, _. split; [by apply _set_spec|].
  erewrite _get_spec.
  - by rewrite lookup_insert_eq.
  - by apply contents_settled.
  - by rewrite store_location_settled.
Qed.

Lemma set_then_get_witness :
  ∃ s1 s2, _set key_a val_1 sample_state = (Ok tt, s1)
           ∧ _get key_a s1 = (Ok (Some val_1), s2).
Proof. apply (set_then_get sample_state ∅ key_a val_1). reflexivity. Defined.

(** C2. [_contains] asks the probe first.  When the probe answers "absent"
    the result is false and the probe is the only engine call; when it
    answers "maybe" a lookup follows and decides.  With a probe that has no
    false negatives the result is true exactly for the keys that have a
    value, so a key just set is found and a false positive is not. *)
Theorem contains_probe_then_lookup
    (may_exist : gmap bytes bytes → bytes → bool) s t k :
  (∀ t k, is_Some (t !! k) → may_exist t k = true) →
  contents s = Some t →
  (∃ s', _contains may_exist k s = (Ok (bool_decide (is_Some (t !! k))), s')
         ∧ contents s' = Some t
         ∧ Rocksdb.trace (world s')
           = Rocksdb.trace (world s) ++ open_events s ++
             if may_exist t k
             then [Rocksdb.EvKeyMayExist k; Rocksdb.EvGet k]
             else [Rocksdb.EvKeyMayExist k])
  ∧ (∀ v, ∃ s1 s2, _set k v s = (Ok tt, s1)
                   ∧ _contains may_exist k s1 = (Ok true, s2)).
Proof.
  intros Hprobe Hc. destruct (usable_location s t Hc) as [loc Hl].
  assert (Hgen : ∀ s t, contents s = Some t → store_location s = Ok loc →
    _contains may_exist k s
    = (Ok (bool_decide (is_Some (t !! k))),
       settled s (open_events s ++
                  if may_exist t k
                  then [Rocksdb.EvKeyMayExist k; Rocksdb.EvGet k]
                  else [Rocksdb.EvKeyMayExist k]) loc t)).
  { clear s t Hc Hl. intros s t Hc Hl. unfold _contains.
    rewrite (bind_ok _ _ _ _ _ (db_at s t loc Hc Hl)).
    rewrite (bind_ok _ _ _ _ _ (key_may_exist_settled _ _ _ _ _ _)); simpl.
    destruct (may_exist t k) eqn:Hm.
    - rewrite (bind_ok _ _ _ _ _ (get_settled _ _ _ _ _)).
      unfold mret, ST_ret. rewrite <- app_assoc; simpl. do 2 f_equal.
      apply bool_decide_ext. by rewrite is_Some_alt; destruct (t !! k).
    - unfold mret, ST_ret. do 2 f_equal. symmetry. apply bool_decide_eq_false.
      intros Hs. apply Hprobe in Hs. congruence. }
  split.
  - eexists. split; [by apply Hgen|]. split; [by apply contents_settled|].
    simpl. done.
  - intros v. eexists _, _. split; [by apply _set_spec|].
    rewrite (Hgen _ (<[k := v]> t)).
    + rewrite lookup_insert_eq. by rewrite bool_decide_eq_true_2.
    + by apply contents_settled.
    + by rewrite store_location_settled.
Qed.

Lemma sample_probe_no_false_negative t k :
  is_Some (t !! k) → sample_probe t k = true.
Proof. intros H. unfold sample_probe. by rewrite bool_decide_eq_true_2. Qed.

Lemma contains_probe_then_lookup_witness :
  (∃ s', _contains sample_probe key_z sample_state
         = (Ok (bool_decide (is_Some ((∅ : gmap bytes bytes) !! key_z))), s')
         ∧ contents s' = Some ∅
         ∧ Rocksdb.trace (world s')
           = Rocksdb.trace (world sample_state) ++ open_events sample_state ++
             if sample_probe ∅ key_z
             then [Rocksdb.EvKeyMayExist key_z; Rocksdb.EvGet key_z]
             else [Rocksdb.EvKeyMayExist key_z])
  ∧ (∀ v, ∃ s1 s2, _set key_z v sample_state = (Ok tt, s1)
                   ∧ _contains sample_probe key_z s1 = (Ok true, s2)).
Proof.
  apply (contains_probe_then_lookup sample_probe sample_state ∅ key_z).
  - exact sample_probe_no_false_negative.
  - reflexivity.
Defined.

(** ** Changelog batches *)

(** C1, as the code has it.  [apply_changelog_batch] commits one write batch
    and makes no other mutating call: the batch holds, in order, one put per
    record with the record's own key and value.  Neither transform is
    consulted: the outcome is the same whatever [to_key] and [to_value]
    are. *)
Theorem apply_changelog_batch_commits_raw batch to_key to_value s t :
  contents s = Some t →
  ∃ s', apply_changelog_batch batch to_key to_value s = (Ok tt, s')
        ∧ Rocksdb.trace (world s')
          = Rocksdb.trace (world s) ++ open_events s
            ++ [Rocksdb.EvWrite (raw_batch batch)]
        ∧ contents s' = Some (foldl Rocksdb.apply_op t (raw_batch batch))
        ∧ ∀ to_key' to_value',
            apply_changelog_batch batch to_key' to_value' s = (Ok tt, s').
Proof.
  intros Hc. destruct (usable_location s t Hc) as [loc Hl].
  eexists. split; [by apply apply_changelog_batch_spec|].
  split; [done|]. split; [by apply contents_settled|].
  intros. by apply apply_changelog_batch_spec.
Qed.

Lemma apply_changelog_batch_commits_raw_witness :
  ∃ s', apply_changelog_batch sample_batch sample_to_key sample_to_value sample_state
        = (Ok tt, s')
        ∧ Rocksdb.trace (world s')
          = Rocksdb.trace (world sample_state) ++ open_events sample_state
            ++ [Rocksdb.EvWrite (raw_batch sample_batch)]
        ∧ contents s' = Some (foldl Rocksdb.apply_op ∅ (raw_batch sample_batch))
        ∧ ∀ to_key' to_value',
            apply_changelog_batch sample_batch to_key' to_value' sample_state
            = (Ok tt, s').
Proof.
  apply (apply_changelog_batch_commits_raw sample_batch sample_to_key
           sample_to_value sample_state ∅).
  reflexivity.
Defined.

(** C1, as stated, fails: with transforms that are not the identity the
    batch committed is not the transformed one, and the table holds the raw
    key b"a", not the transformed key b"za". *)
Lemma apply_changelog_batch_transforms_unused :
  ∃ s', apply_changelog_batch sample_batch sample_to_key sample_to_value sample_state
        = (Ok tt, s')
        ∧ last (Rocksdb.trace (world s'))
          ≠ Some (Rocksdb.EvWrite
                    (transformed_batch sample_to_key sample_to_value sample_batch))
        ∧ contents s'
          ≠ Some (foldl Rocksdb.apply_op ∅
                    (transformed_batch sample_to_key sample_to_value sample_batch))
        ∧ fst (_get key_a s') = Ok (Some val_1)
        ∧ fst (_get (sample_to_key key_a) s') = Ok None.
Proof.
  assert (Hc : contents sample_state = Some ∅) by reflexivity.
  assert (Hl : store_location sample_state
               = Ok (Pathlib.parse "/var/faust/tables/orders.db")) by reflexivity.
  eexists. split; [by apply (apply_changelog_batch_spec _ _ _ _ _ _ Hc Hl)|].
  pose proof (contents_settled sample_state
    (open_events sample_state ++ [Rocksdb.EvWrite (raw_batch sample_batch)])
    _ (foldl Rocksdb.apply_op ∅ (raw_batch sample_batch)) Hl) as Hc'.
  pose proof (store_location_settled sample_state
    (open_events sample_state ++ [Rocksdb.EvWrite (raw_batch sample_batch)])
    (Pathlib.parse "/var/faust/tables/orders.db")
    (foldl Rocksdb.apply_op ∅ (raw_batch sample_batch))) as Hl'.
  rewrite Hl in Hl'.
  split.
  { cbn [settled world Rocksdb.trace]. rewrite app_assoc, last_snoc.
    apply neq_by_decide. vm_compute. reflexivity. }
  split.
  { rewrite Hc'. apply neq_by_decide. vm_compute. reflexivity. }
  split.
  - rewrite (_get_spec _ _ _ Hc' Hl'). reflexivity.
  - rewrite (_get_spec _ _ _ Hc' Hl'). reflexivity.
Qed.

(** C3. Replaying a batch changes nothing: after the second application the
    object and the disk are what they were after the first.  Within a batch
    the last record of a key decides its value; keys the batch does not
    mention keep theirs. *)
Theorem apply_changelog_batch_idempotent batch to_key to_value s t :
  contents s = Some t →
  ∃ s1 s2 t1,
    apply_changelog_batch batch to_key to_value s = (Ok tt, s1)
    ∧ apply_changelog_batch batch to_key to_value s1 = (Ok tt, s2)
    ∧ contents s1 = Some t1 ∧ contents s2 = Some t1
    ∧ self s2 = self s1
    ∧ Rocksdb.disk (world s2) = Rocksdb.disk (world s1)
    ∧ ∀ k, t1 !! k = match last_write k batch with
                     | Some v => Some v
                     | None => t !! k
                     end.
Proof.
  intros Hc. destruct (usable_location s t Hc) as [loc Hl].
  eexists _, _, _. split; [by apply apply_changelog_batch_spec|].
  split.
  { apply apply_changelog_batch_spec.
    - by apply contents_settled.
    - by rewrite store_location_settled. }
  rewrite settled_settled, apply_raw_batch_twice.
  split; [by apply contents_settled|]. split; [by apply contents_settled|].
  split; [done|]. split; [done|].
  apply lookup_apply_raw_batch.
Qed.

Lemma apply_changelog_batch_idempotent_witness :
  ∃ s1 s2 t1,
    apply_changelog_batch sample_batch sample_to_key sample_to_value sample_state
    = (Ok tt, s1)
    ∧ apply_changelog_batch sample_batch sample_to_key sample_to_value s1 = (Ok tt, s2)
    ∧ contents s1 = Some t1 ∧ contents s2 = Some t1
    ∧ self s2 = self s1
    ∧ Rocksdb.disk (world s2) = Rocksdb.disk (world s1)
    ∧ ∀ k, t1 !! k = match last_write k sample_batch with
                     | Some v => Some v
                     | None => (∅ : gmap bytes bytes) !! k
                     end.
Proof.
  apply (apply_changelog_batch_idempotent sample_batch sample_to_key
           sample_to_value sample_state ∅).
  reflexivity.
Defined.

(** C10. An empty batch on a store that is not open yet: the call opens the
    engine and commits an empty write batch, and every key reads as before. *)
Theorem empty_batch_opens_and_keeps to_key to_value s t :
  contents s = Some t →
  _db (self s) = None →
  ∃ s' h p,
    apply_changelog_batch [] to_key to_value s = (Ok tt, s')
    ∧ path (self s) = Ok p
    ∧ Rocksdb.trace (world s')
      = Rocksdb.trace (world s)
        ++ [Rocksdb.EvOpen p (_options (self s)); Rocksdb.EvWrite []]
    ∧ _db (self s') = Some h
    ∧ contents s' = Some t
    ∧ ∀ k, fst (_get k s) = Ok (t !! k) ∧ fst (_get k s') = Ok (t !! k).
Proof.
  intros Hc Hdb. destruct (usable_location s t Hc) as [loc Hl].
  assert (∃ p, path (self s) = Ok p) as [p Hp].
  { unfold store_location in Hl. destruct (path (self s)); [eauto|done]. }
  eexists _, _, p. split; [by apply apply_changelog_batch_spec|].
  split; [done|]. simpl.
  split. { unfold open_events. by rewrite Hdb, Hp. }
  split; [done|]. split. { by apply contents_settled. }
  intros k. split.
  - by erewrite _get_spec.
  - erewrite _get_spec; [done| |by rewrite store_location_settled].
    by apply contents_settled.
Qed.

Lemma empty_batch_opens_and_keeps_witness :
  ∃ s' h p,
    apply_changelog_batch [] sample_to_key sample_to_value sample_state = (Ok tt, s')
    ∧ path (self sample_state) = Ok p
    ∧ Rocksdb.trace (world s')
      = Rocksdb.trace (world sample_state)
        ++ [Rocksdb.EvOpen p (_options (self sample_state)); Rocksdb.EvWrite []]
    ∧ _db (self s') = Some h
    ∧ contents s' = Some ∅
    ∧ ∀ k, fst (_get k sample_state) = Ok ((∅ : gmap bytes bytes) !! k)
           ∧ fst (_get k s') = Ok ((∅ : gmap bytes bytes) !! k).
Proof.
  apply (empty_batch_opens_and_keeps sample_to_key sample_to_value sample_state ∅);
    reflexivity.
Defined.

(** ** The engine handle *)

Lemma init_ok url0 app0 name0 kw o :
  __init__ url0 app0 name0 kw = Ok o →
  _db o = None ∧ app o = app0 ∧ table_name o = name0
  ∧ _options o = {|
      Rocksdb.create_if_missing := true;
      Rocksdb.max_open_files := kw_max_open_files kw;
      Rocksdb.write_buffer_size := kw_write_buffer_size kw;
      Rocksdb.max_write_buffer_number := kw_max_write_buffer_number kw;
      Rocksdb.target_file_size_base := kw_target_file_size_base kw;
      Rocksdb.table_factory := {|
        Rocksdb.filter_policy := kw_bloom_filter_size kw;
        Rocksdb.block_cache := kw_block_cache_size kw;
        Rocksdb.block_cache_compressed := kw_block_cache_compressed_size kw |} |}.
Proof.
  unfold __init__. case_bool_decide.
  - destruct (url_div name0); intros; by simplify_eq.
  - intros; by simplify_eq.
Qed.

(** C4. A store comes out of its constructor without a handle.  The first
    access to [db] opens the engine once, on the store's path and with the
    options made of the constructor's tuning arguments, and keeps the handle;
    an access after that returns the same handle and does nothing else, so
    the state, the log of engine calls included, is unchanged. *)
Theorem handle_opened_once url0 app0 name0 kw o w t :
  __init__ url0 app0 name0 kw = Ok o →
  contents {| self := o; world := w |} = Some t →
  _db o = None
  ∧ ∃ p h s1,
      path o = Ok p
      ∧ db {| self := o; world := w |} = (Ok h, s1)
      ∧ Rocksdb.location h = Pathlib.absolute (Rocksdb.cwd w) p
      ∧ Rocksdb.trace (world s1)
        = Rocksdb.trace w ++ [Rocksdb.EvOpen p {|
            Rocksdb.create_if_missing := true;
            Rocksdb.max_open_files := kw_max_open_files kw;
            Rocksdb.write_buffer_size := kw_write_buffer_size kw;
            Rocksdb.max_write_buffer_number := kw_max_write_buffer_number kw;
            Rocksdb.target_file_size_base := kw_target_file_size_base kw;
            Rocksdb.table_factory := {|
              Rocksdb.filter_policy := kw_bloom_filter_size kw;
              Rocksdb.block_cache := kw_block_cache_size kw;
              Rocksdb.block_cache_compressed := kw_block_cache_compressed_size kw |} |}]
      ∧ _db (self s1) = Some h
      ∧ contents s1 = Some t
      ∧ db s1 = (Ok h, s1).
Proof.
  intros Hinit Hc. destruct (init_ok _ _ _ _ _ Hinit) as (Hdb & _ & _ & Hopt).
  split; [done|].
  destruct (db_spec _ _ Hc) as (loc & Hl & Hopen).
  unfold store_location in Hl; simpl in Hl.
  destruct (path o) as [p|] eqn:Hp; [|done]. simplify_eq.
  eexists p, _, _. split; [done|]. split; [exact Hopen|].
  split; [done|]. split.
  { simpl. unfold open_events; simpl. by rewrite Hdb, Hp, Hopt. }
  split; [done|]. split.
  { apply contents_settled. unfold store_location; simpl. by rewrite Hp. }
  by apply db_cached.
Qed.

Lemma handle_opened_once_witness :
  _db sample_store = None
  ∧ ∃ p h s1,
      path sample_store = Ok p
      ∧ db {| self := sample_store; world := sample_world |} = (Ok h, s1)
      ∧ Rocksdb.location h = Pathlib.absolute (Rocksdb.cwd sample_world) p
      ∧ Rocksdb.trace (world s1)
        = Rocksdb.trace sample_world ++ [Rocksdb.EvOpen p {|
            Rocksdb.create_if_missing := true;
            Rocksdb.max_open_files := kw_max_open_files default_tuning;
            Rocksdb.write_buffer_size := kw_write_buffer_size default_tuning;
            Rocksdb.max_write_buffer_number := kw_max_write_buffer_number default_tuning;
            Rocksdb.target_file_size_base := kw_target_file_size_base default_tuning;
            Rocksdb.table_factory := {|
              Rocksdb.filter_policy := kw_bloom_filter_size default_tuning;
              Rocksdb.block_cache := kw_block_cache_size default_tuning;
              Rocksdb.block_cache_compressed :=
                kw_block_cache_compressed_size default_tuning |} |}]
      ∧ _db (self s1) = Some h
      ∧ contents s1 = Some ∅
      ∧ db s1 = (Ok h, s1).
Proof.
  apply (handle_opened_once "" sample_app "orders" default_tuning sample_store
           sample_world ∅); reflexivity.
Defined.

(** C8, as the code has it.  When the engine refuses to open the store's
    directory, the access to [db] raises the engine's own error, unchanged:
    the store wraps nothing around it and adds no path.  The engine was
    asked once, the handle stays absent, and the disk is untouched.  The
    methods that go through [db] raise the same error. *)
Theorem open_failure_propagates s p cause :
  _db (self s) = None →
  path (self s) = Ok p →
  Rocksdb.disk (world s) !! Pathlib.absolute (Rocksdb.cwd (world s)) p
  = Some (Rocksdb.Unopenable cause) →
  ∃ s', db s = (Raise (RocksError cause), s')
        ∧ self s' = self s
        ∧ Rocksdb.disk (world s') = Rocksdb.disk (world s)
        ∧ Rocksdb.trace (world s')
          = Rocksdb.trace (world s) ++ [Rocksdb.EvOpen p (_options (self s))]
        ∧ (∀ k, _get k s = (Raise (RocksError cause), s'))
        ∧ (∀ k v, _set k v s = (Raise (RocksError cause), s')).
Proof.
  intros Hdb Hp Hd.
  assert (Hopen : db s = (Raise (RocksError cause),
            {| self := self s;
               world := Rocksdb.log (Rocksdb.EvOpen p (_options (self s))) (world s) |})).
  { unfold db, _open_db, attr, prop, extern, Rocksdb.open, mbind, ST_bind,
      mret, ST_ret; simpl. rewrite Hdb, Hp; simpl. by rewrite Hd. }
  eexists. split; [exact Hopen|]. repeat split.
  - intros k. unfold _get. by rewrite (bind_raise _ _ _ _ _ Hopen).
  - intros k v. unfold _set. by rewrite (bind_raise _ _ _ _ _ Hopen).
Qed.

Lemma open_failure_propagates_witness :
  ∃ s', db locked_state
        = (Raise (RocksError "IO error: lock hold by current process"), s')
        ∧ self s' = self locked_state
        ∧ Rocksdb.disk (world s') = Rocksdb.disk (world locked_state)
        ∧ Rocksdb.trace (world s')
          = Rocksdb.trace (world locked_state)
            ++ [Rocksdb.EvOpen (Pathlib.parse "/var/faust/tables/orders.db")
                  (_options (self locked_state))]
        ∧ (∀ k, _get k locked_state
                = (Raise (RocksError "IO error: lock hold by current process"), s'))
        ∧ (∀ k v, _set k v locked_state
                  = (Raise (RocksError "IO error: lock hold by current process"), s')).
Proof.
  apply (open_failure_propagates locked_state
           (Pathlib.parse "/var/faust/tables/orders.db")
           "IO error: lock hold by current process"); reflexivity.
Defined.

(** C8, as stated, fails: on a locked directory the error raised is the
    engine's, not an [EngineOpenError], whatever path and cause one reads
    into it. *)
Lemma open_failure_not_wrapped :
  fst (db locked_state) = Raise (RocksError "IO error: lock hold by current process")
  ∧ ∀ where_ cause, fst (db locked_state) ≠ Raise (EngineOpenError where_ cause).
Proof.
  assert (H : fst (db locked_state)
              = Raise (RocksError "IO error: lock hold by current process"))
    by reflexivity.
  split; [exact H|]. intros where_ cause. rewrite H. discriminate.
Qed.

(** ** Reset *)

Lemma absolute_idem cwd p :
  Pathlib.is_absolute cwd = true →
  Pathlib.absolute cwd (Pathlib.absolute cwd p) = Pathlib.absolute cwd p.
Proof.
  intros Hcwd. unfold Pathlib.absolute.
  destruct (Pathlib.is_absolute p) eqn:Hp; [by rewrite Hp|].
  unfold Pathlib.truediv. rewrite Hp.
  change (Pathlib.is_absolute {| Pathlib.root := Pathlib.root cwd;
            Pathlib.parts := Pathlib.parts cwd ++ Pathlib.parts p |})
    with (Pathlib.is_absolute cwd).
  by rewrite Hcwd.
Qed.

Lemma entries_empty : Rocksdb.entries ∅ = [].
Proof. unfold Rocksdb.entries. by rewrite map_to_list_empty. Qed.

(** [reset_state], case by case. *)
Lemma reset_state_unfold s p :
  path (self s) = Ok p →
  Pathlib.is_absolute (Rocksdb.cwd (world s)) = true →
  let loc := Pathlib.absolute (Rocksdb.cwd (world s)) p in
  let w := {| Rocksdb.cwd := Rocksdb.cwd (world s);
              Rocksdb.disk := Rocksdb.disk (world s);
              Rocksdb.handles := forgotten s;
              Rocksdb.trace := Rocksdb.trace (world s) ++ [Rocksdb.EvRmtree loc] |} in
  let failed := {| self := with_db None (self s); world := w |} in
  reset_state s
  = match Rocksdb.disk (world s) !! loc with
    | None => (Ok tt, after_reset s loc)
    | Some Rocksdb.File => (Raise NotADirectoryError, failed)
    | Some _ =>
        if bool_decide (map_Forall (λ q d, Rocksdb.under loc q → d ≠ Rocksdb.Unreadable)
                          (Rocksdb.disk (world s)))
        then (Ok tt, after_reset s loc)
        else (Raise PermissionError, failed)
    end.
Proof.
  intros Hp Hcwd loc w failed. subst failed w.
  unfold reset_state, assign_db, suppress, prop, getcwd, extern,
    Rocksdb.rmtree, after_reset, forgotten, mbind, ST_bind; cbn [self world].
  rewrite path_with_db, Hp.
  destruct (_db (self s));
    cbn [Rocksdb.release Rocksdb.log Rocksdb.cwd Rocksdb.disk Rocksdb.set_disk
         Rocksdb.set_handles Rocksdb.trace Rocksdb.handles self world];
    rewrite (absolute_idem _ _ Hcwd); fold loc;
    (destruct (Rocksdb.disk (world s) !! loc) as [[]|] eqn:Hd; [..|done]);
    try done; by case_bool_decide.
Qed.

(** What [reset_state] leaves of state [s]. *)
Lemma reset_state_spec s p :
  path (self s) = Ok p →
  Pathlib.is_absolute (Rocksdb.cwd (world s)) = true →
  removable s (Pathlib.absolute (Rocksdb.cwd (world s)) p) →
  reset_state s
  = (Ok tt, after_reset s (Pathlib.absolute (Rocksdb.cwd (world s)) p)).
Proof.
  intros Hp Hcwd Hrm. rewrite (reset_state_unfold s p Hp Hcwd). cbv zeta.
  unfold removable in Hrm.
  destruct (Rocksdb.disk (world s) !! _) as [[]|]; try done;
    by rewrite bool_decide_eq_true_2.
Qed.

(** A reset that returned left the state [reset_state_spec] gives. *)
Lemma reset_state_inv s p s1 :
  path (self s) = Ok p →
  Pathlib.is_absolute (Rocksdb.cwd (world s)) = true →
  reset_state s = (Ok tt, s1) →
  s1 = after_reset s (Pathlib.absolute (Rocksdb.cwd (world s)) p).
Proof.
  intros Hp Hcwd. rewrite (reset_state_unfold s p Hp Hcwd). cbv zeta.
  destruct (Rocksdb.disk (world s) !! _) as [[]|]; try case_bool_decide;
    intros; by simplify_eq.
Qed.

(** *** The tree after a reset *)

Lemma length_removelast_lt {A} (l : list A) :
  l ≠ [] → (length (removelast l) < length l)%nat.
Proof.
  induction l as [|a [|b l] IH]; intros H; [done|simpl; lia|].
  assert (Hne : b :: l ≠ []) by done. specialize (IH Hne).
  change (removelast (a :: b :: l)) with (a :: removelast (b :: l)).
  simpl in *. lia.
Qed.

Lemma parent_not_under loc :
  Pathlib.parts (Rocksdb.parent loc) ≠ [] →
  ¬ Rocksdb.under loc (Rocksdb.parent loc).
Proof.
  unfold Rocksdb.under, Rocksdb.parent; simpl. intros Hne [_ Hpre].
  apply prefix_length in Hpre.
  destruct (Pathlib.parts loc) as [|a l] eqn:Hl; [done|].
  assert (Hnil : a :: l ≠ []) by done.
  pose proof (length_removelast_lt (a :: l) Hnil). lia.
Qed.

Lemma under_refl loc : Rocksdb.under loc loc.
Proof. by split. Qed.

Lemma after_reset_disk_under s loc q :
  is_Some (Rocksdb.disk (world s) !! loc) →
  Rocksdb.under loc q →
  Rocksdb.disk (world (after_reset s loc)) !! q = None.
Proof.
  intros [d Hd] Hq. unfold after_reset; simpl. rewrite Hd.
  apply map_lookup_filter_None_2. right. intros x _ H. by apply H.
Qed.

Lemma after_reset_disk_other s loc q :
  ¬ Rocksdb.under loc q →
  Rocksdb.disk (world (after_reset s loc)) !! q = Rocksdb.disk (world s) !! q.
Proof.
  intros Hq. unfold after_reset; simpl.
  destruct (Rocksdb.disk (world s) !! loc); [|done].
  rewrite map_lookup_filter.
  destruct (Rocksdb.disk (world s) !! q); simpl; [|done].
  by rewrite option_guard_True.
Qed.

Lemma after_reset_disk_loc s loc :
  Rocksdb.disk (world (after_reset s loc)) !! loc = None.
Proof.
  destruct (Rocksdb.disk (world s) !! loc) as [d|] eqn:Hd.
  - apply after_reset_disk_under; [by eexists|apply under_refl].
  - unfold after_reset; simpl. by rewrite Hd.
Qed.

Lemma after_reset_dir_exists s loc :
  Rocksdb.dir_exists (world s) (Rocksdb.parent loc) = true →
  Rocksdb.dir_exists (world (after_reset s loc)) (Rocksdb.parent loc) = true.
Proof.
  unfold Rocksdb.dir_exists.
  destruct (Pathlib.parts (Rocksdb.parent loc)) as [|a l] eqn:Hp; [done|].
  rewrite after_reset_disk_other; [done|].
  apply parent_not_under. by rewrite Hp.
Qed.

(** The state a reset leaves is usable and empty when no iterator holds the
    database object and the directory can be made anew. *)
Lemma after_reset_usable s p :
  path (self s) = Ok p →
  let loc := Pathlib.absolute (Rocksdb.cwd (world s)) p in
  unshared s loc →
  Rocksdb.dir_exists (world s) (Rocksdb.parent loc) = true →
  contents (after_reset s loc) = Some ∅
  ∧ store_location (after_reset s loc) = Ok loc
  ∧ open_events (after_reset s loc) = [Rocksdb.EvOpen p (_options (self s))].
Proof.
  intros Hp loc Hu Hpar.
  assert (Hl : store_location (after_reset s loc) = Ok loc).
  { unfold store_location, after_reset; simpl. by rewrite path_with_db, Hp. }
  assert (Hh : Rocksdb.handles (world (after_reset s loc)) !! loc = None).
  { unfold after_reset, forgotten, unshared in *; simpl.
    destruct (_db (self s)) as [h|]; [|done]. destruct Hu as [Hloc H1].
    unfold Rocksdb.release, Rocksdb.set_handles; simpl. rewrite Hloc, H1.
    apply lookup_delete_eq. }
  assert (Hdb : _db (self (after_reset s loc)) = None).
  { unfold after_reset; simpl. by destruct (self s). }
  split; [|split; [done|]].
  - unfold contents. rewrite Hl, Hdb, Hh, after_reset_disk_loc.
    by rewrite (after_reset_dir_exists _ _ Hpar).
  - unfold open_events. rewrite Hdb. unfold after_reset; simpl.
    by rewrite path_with_db, Hp, options_with_db.
Qed.

(** C5, as the code has it.  Unless something stands in the way of the
    removal (then the error of [rmtree] propagates), [reset_state] returns:
    the handle is absent, the
    store's reference to the database object is given up, and the directory
    is gone with everything beneath it; when there was no directory the disk
    is as it was.  If moreover no iterator keeps the database object alive
    and the directory in which the store's directory is made exists, the
    store then stands on the empty table: the next access to [db] opens a
    database in which [_size] is 0 and the iteration is empty. *)
Theorem reset_state_clears s p :
  let loc := Pathlib.absolute (Rocksdb.cwd (world s)) p in
  path (self s) = Ok p →
  Pathlib.is_absolute (Rocksdb.cwd (world s)) = true →
  removable s loc →
  ∃ s', reset_state s = (Ok tt, s')
        ∧ _db (self s') = None
        ∧ Rocksdb.handles (world s') = forgotten s
        ∧ Rocksdb.disk (world s') !! loc = None
        ∧ (is_Some (Rocksdb.disk (world s) !! loc) →
           ∀ q, Rocksdb.under loc q → Rocksdb.disk (world s') !! q = None)
        ∧ (Rocksdb.disk (world s) !! loc = None →
           Rocksdb.disk (world s') = Rocksdb.disk (world s))
        ∧ (unshared s loc →
           Rocksdb.dir_exists (world s) (Rocksdb.parent loc) = true →
           contents s' = Some ∅
           ∧ (∃ h s'', db s' = (Ok h, s'')
                       ∧ fst (_size s'') = Ok 0%nat
                       ∧ fst (list_of _iteritems s'') = Ok [])
           ∧ fst (_size s') = Ok 0%nat).
Proof.
  intros loc Hp Hcwd Hrm. exists (after_reset s loc).
  split; [by apply reset_state_spec|].
  split. { unfold after_reset; simpl. by destruct (self s). }
  split; [done|]. split; [apply after_reset_disk_loc|].
  split. { intros Hd q Hq. by apply after_reset_disk_under. }
  split. { intros Hd. unfold after_reset; simpl. by rewrite Hd. }
  intros Hu Hpar.
  destruct (after_reset_usable s p Hp Hu Hpar) as (Hc & Hl & _). fold loc in Hc, Hl.
  split; [done|]. split.
  - eexists _, _. split; [by apply db_at|].
    pose proof (contents_settled (after_reset s loc)
                  (open_events (after_reset s loc)) loc ∅ Hl) as Hc'.
    pose proof (store_location_settled (after_reset s loc)
                  (open_events (after_reset s loc)) loc ∅) as Hl'.
    rewrite Hl in Hl'.
    rewrite (_size_spec _ _ _ Hc' Hl'), (_iteritems_spec _ _ _ Hc' Hl').
    by rewrite entries_empty.
  - rewrite (_size_spec _ _ _ Hc Hl). by rewrite entries_empty.
Qed.

Lemma reset_state_clears_witness :
  let s := populated_state in
  let loc := Pathlib.absolute (Rocksdb.cwd (world s))
               (Pathlib.parse "/var/faust/tables/orders.db") in
  (unshared s loc ∧ Rocksdb.dir_exists (world s) (Rocksdb.parent loc) = true)
  ∧ ∃ s', reset_state s = (Ok tt, s')
        ∧ _db (self s') = None
        ∧ Rocksdb.handles (world s') = forgotten s
        ∧ Rocksdb.disk (world s') !! loc = None
        ∧ (is_Some (Rocksdb.disk (world s) !! loc) →
           ∀ q, Rocksdb.under loc q → Rocksdb.disk (world s') !! q = None)
        ∧ (Rocksdb.disk (world s) !! loc = None →
           Rocksdb.disk (world s') = Rocksdb.disk (world s))
        ∧ (unshared s loc →
           Rocksdb.dir_exists (world s) (Rocksdb.parent loc) = true →
           contents s' = Some ∅
           ∧ (∃ h s'', db s' = (Ok h, s'')
                       ∧ fst (_size s'') = Ok 0%nat
                       ∧ fst (list_of _iteritems s'') = Ok [])
           ∧ fst (_size s') = Ok 0%nat).
Proof.
  split.
  - split; [apply (bool_decide_unpack _); vm_compute; exact I|vm_compute; reflexivity].
  - apply (reset_state_clears populated_state
             (Pathlib.parse "/var/faust/tables/orders.db")).
    + vm_compute; reflexivity.
    + vm_compute; reflexivity.
    + apply (bool_decide_unpack _); vm_compute; exact I.
Defined.

(** C5, as stated, fails in three states.  With a keys generator half
    read, the reset returns but the database object lives on in the
    generator's iterator and keeps the lock: the next access to [db] raises.
    A directory out of the process's reach makes [rmtree] raise an error
    that is not the suppressed one, and nothing is deleted.  And where the
    tables directory is missing, the reset returns but the next open cannot
    make the store's directory. *)
Lemma reset_state_reopen_fails :
  (fst (fst (next_ _iterkeys populated_state)) = Ok (Some key_a)
   ∧ fst (reset_state iterating_state) = Ok tt
   ∧ _db (self (snd (reset_state iterating_state))) = None
   ∧ fst (db (snd (reset_state iterating_state))) = Raise Rocksdb.lock_held
   ∧ fst (_size (snd (reset_state iterating_state))) = Raise Rocksdb.lock_held)
  ∧ (fst (reset_state unreadable_state) = Raise PermissionError
     ∧ Rocksdb.disk (world (snd (reset_state unreadable_state)))
       = Rocksdb.disk (world unreadable_state))
  ∧ (fst (reset_state orphan_state) = Ok tt
     ∧ fst (db (snd (reset_state orphan_state)))
       = Raise (RocksError "IO error: No such file or directory")).
Proof. repeat split; vm_compute; reflexivity. Qed.

(** Closing the half-read generator before the reset gives the lock back:
    the store opened next is empty. *)
Example closing_generator_frees_lock :
  (let '(_, g, s) := next_ _iterkeys populated_state in
   let '(_, s) := close_ g s in
   fst ((reset_state;; _size) s)) = Ok 0%nat
  ∧ (let '(_, g, s) := next_ _iterkeys populated_state in
     fst ((reset_state;; _size) s)) = Raise Rocksdb.lock_held.
Proof. split; vm_compute; reflexivity. Qed.

(** ** Iteration *)

Lemma set_all_spec kvs s t loc :
  contents s = Some t → store_location s = Ok loc →
  ∃ s', set_all kvs s = (Ok tt, s')
        ∧ contents s' = Some (foldl (λ t kv, <[kv.1 := kv.2]> t) t kvs)
        ∧ store_location s' = Ok loc.
Proof.
  revert s t. induction kvs as [|[k v] kvs IH]; intros s t Hc Hl; simpl.
  - by exists s.
  - rewrite (bind_ok _ _ _ _ _ (_set_spec s t loc Hc Hl k v)).
    apply IH.
    + by apply contents_settled.
    + by rewrite store_location_settled.
Qed.

Lemma set_all_keys (kvs : list (bytes * bytes)) (t : gmap bytes bytes) k :
  is_Some (foldl (λ t kv, <[kv.1 := kv.2]> t) t kvs !! k)
  ↔ k ∈ kvs.*1 ∨ is_Some (t !! k).
Proof.
  revert t. induction kvs as [|[k0 v0] kvs IH]; intros t; simpl.
  - rewrite elem_of_nil. tauto.
  - rewrite IH, lookup_insert_is_Some, elem_of_cons.
    destruct (decide (k0 = k)); intuition congruence.
Qed.

(** The first [n] calls of [next] on a fresh generator in a usable state,
    and the [m] calls after them. *)
Lemma nexts_lazy {A} (g : Generator A) (kind : Rocksdb.IterKind)
    (view : gmap bytes bytes → list A) s t n m :
  contents s = Some t →
  gen_state g = Fresh →
  make g = Rocksdb.new_iterator kind view →
  ∃ g' s' g'' s'',
    nexts n g s = (Ok (take n (view t)), g', s')
    ∧ nexts m g' s' = (Ok (take m (drop n (view t))), g'', s'')
    ∧ (n = 0%nat → g' = g ∧ s' = s)
    ∧ (0 < n → logged s s' = open_events s ++ [Rocksdb.EvIter kind]
               ∧ logged s' s'' = [])%nat
    ∧ (gen_state g' = Finished ↔ length (view t) < n)%nat.
Proof.
  intros Hc Hg Hm. destruct (usable_location s t Hc) as [loc Hl].
  destruct n as [|n].
  - destruct m as [|m].
    + exists g, s, g, s. rewrite Hg. repeat split; try done; lia.
    + pose proof (nexts_fresh s t loc Hc Hl g kind view m Hg Hm) as Hn.
      cbv zeta in Hn. rewrite drop_0.
      destruct (decide (S m ≤ length (view t))%nat);
        eexists g, s, _, _; rewrite Hg;
        (split; [done|]); (split; [rewrite Hn; try done; by rewrite take_ge by lia|]);
        repeat split; try done; lia.
  - pose proof (nexts_fresh s t loc Hc Hl g kind view n Hg Hm) as Hn.
    cbv zeta in Hn.
    destruct (decide (S n ≤ length (view t))%nat) as [Hle|Hgt].
    + pose proof (nexts_suspended g (view t) {| Rocksdb.location := loc |}
        (retained {| Rocksdb.location := loc |}
           (settled s (open_events s ++ [Rocksdb.EvIter kind]) loc t)) m (S n))
        as Hmm.
      destruct (decide (m ≤ length (drop (S n) (view t)))%nat);
        eexists _, _, _, _; (split; [exact Hn|]);
        (split; [rewrite Hmm; try done; by rewrite take_ge by lia|]);
        (split; [done|]);
        (split; [intros _; split;
                  [by apply logged_app|by apply logged_same]|]);
        simpl; split; [done|lia|done|lia].
    + eexists _, _, _, _. split; [rewrite Hn; by rewrite take_ge by lia|].
      split. { rewrite nexts_finished by done.
               rewrite drop_ge by lia. by rewrite take_nil. }
      split; [done|].
      split. { intros _. split; [by apply logged_app|by apply logged_same]. }
      simpl. split; [lia|done].
Qed.

(** C7. After any sequence of [_set] calls, the keys-only iteration yields a
    strictly ascending list of keys (each key is below all that follow, in
    bytewise lexicographic order), hence without repetition, that holds
    exactly the keys set and those the table had before.  The items
    iteration pairs every key with its value, and the keys and values
    iterations are its two projections, in the same order.  The iteration is
    lazy and goes forward only: the generator runs nothing until its first
    [next], which obtains the handle and makes the one iterator; [n] calls
    of [next] hand out the first [n] keys, starting from the first entry;
    the calls after them go on from there, never back, and ask the engine
    for nothing more; the generator is finished exactly when it has been
    asked for more than there is. *)
Theorem iteration_ascending kvs s t :
  contents s = Some t →
  ∃ s1 s2 s3 s4 items,
    set_all kvs s = (Ok tt, s1)
    ∧ list_of _iteritems s1 = (Ok items, s2)
    ∧ list_of _iterkeys s1 = (Ok items.*1, s3)
    ∧ list_of _itervalues s1 = (Ok items.*2, s4)
    ∧ StronglySorted lexico items.*1
    ∧ NoDup items.*1
    ∧ (∀ k, k ∈ items.*1 ↔ k ∈ kvs.*1 ∨ is_Some (t !! k))
    ∧ (∀ k v, (k, v) ∈ items ↔ fst (_get k s1) = Ok (Some v))
    ∧ gen_state _iterkeys = Fresh
    ∧ (∀ n m, ∃ g' s' g'' s'',
         nexts n _iterkeys s1 = (Ok (take n items.*1), g', s')
         ∧ nexts m g' s' = (Ok (take m (drop n items.*1)), g'', s'')
         ∧ (n = 0%nat → g' = _iterkeys ∧ s' = s1)
         ∧ (0 < n → logged s1 s' = open_events s1 ++ [Rocksdb.EvIter Rocksdb.Keys]
                    ∧ logged s' s'' = [])%nat
         ∧ (gen_state g' = Finished ↔ length items.*1 < n)%nat)
    ∧ (∀ n, fst (fst (nexts n _iteritems s1)) = Ok (take n items))
    ∧ (∀ n, fst (fst (nexts n _itervalues s1)) = Ok (take n items.*2)).
Proof.
  intros Hc. destruct (usable_location s t Hc) as [loc Hl].
  destruct (set_all_spec kvs s t loc Hc Hl) as (s1 & Hset & Hc1 & Hl1).
  eexists s1, _, _, _, _. split; [exact Hset|].
  split; [by apply _iteritems_spec|].
  split; [by apply _iterkeys_spec|].
  split; [by apply _itervalues_spec|].
  split; [apply entries_keys_sorted|].
  split; [apply entries_keys_nodup|].
  split. { intros k. by rewrite elem_of_entries_keys, set_all_keys. }
  split. { intros k v. rewrite elem_of_entries, (_get_spec _ _ _ Hc1 Hl1); simpl.
           split; [by intros ->|by intros [=]]. }
  split; [done|].
  split. { intros n m.
           exact (nexts_lazy _iterkeys Rocksdb.Keys (λ t, (Rocksdb.entries t).*1)
                    s1 _ n m Hc1 eq_refl eq_refl). }
  split.
  - intros n.
    destruct (nexts_lazy _iteritems Rocksdb.Items Rocksdb.entries
                s1 _ n 0%nat Hc1 eq_refl eq_refl) as (? & ? & ? & ? & -> & _).
    done.
  - intros n.
    destruct (nexts_lazy _itervalues Rocksdb.Values (λ t, (Rocksdb.entries t).*2)
                s1 _ n 0%nat Hc1 eq_refl eq_refl) as (? & ? & ? & ? & -> & _).
    done.
Qed.

Lemma iteration_ascending_witness :
  ∃ s1 s2 s3 s4 items,
    set_all [(key_a, val_1); (key_c, val_3); (key_b, val_2)] sample_state = (Ok tt, s1)
    ∧ list_of _iteritems s1 = (Ok items, s2)
    ∧ list_of _iterkeys s1 = (Ok items.*1, s3)
    ∧ list_of _itervalues s1 = (Ok items.*2, s4)
    ∧ StronglySorted lexico items.*1
    ∧ NoDup items.*1
    ∧ (∀ k, k ∈ items.*1
            ↔ k ∈ [(key_a, val_1); (key_c, val_3); (key_b, val_2)].*1
              ∨ is_Some ((∅ : gmap bytes bytes) !! k))
    ∧ (∀ k v, (k, v) ∈ items ↔ fst (_get k s1) = Ok (Some v))
    ∧ gen_state _iterkeys = Fresh
    ∧ (∀ n m, ∃ g' s' g'' s'',
         nexts n _iterkeys s1 = (Ok (take n items.*1), g', s')
         ∧ nexts m g' s' = (Ok (take m (drop n items.*1)), g'', s'')
         ∧ (n = 0%nat → g' = _iterkeys ∧ s' = s1)
         ∧ (0 < n → logged s1 s' = open_events s1 ++ [Rocksdb.EvIter Rocksdb.Keys]
                    ∧ logged s' s'' = [])%nat
         ∧ (gen_state g' = Finished ↔ length items.*1 < n)%nat)
    ∧ (∀ n, fst (fst (nexts n _iteritems s1)) = Ok (take n items))
    ∧ (∀ n, fst (fst (nexts n _itervalues s1)) = Ok (take n items.*2)).
Proof.
  apply (iteration_ascending [(key_a, val_1); (key_c, val_3); (key_b, val_2)]
           sample_state ∅).
  reflexivity.
Defined.

(** The scenario of the specification: after b"a", b"c", b"b" are set to
    b"1", b"3", b"2", the items come out as a, b, c; the size is 3; b"z" is
    neither contained (though the probe says "maybe") nor found.  Drawn one
    at a time, the keys come as a, then b; a key set in between is not seen
    by the generator, whose iterator was made at the first [next]. *)
Example scenario :
  fst (list_of _iteritems populated_state)
  = Ok [(key_a, val_1); (key_b, val_2); (key_c, val_3)]
  ∧ fst (_size populated_state) = Ok 3%nat
  ∧ fst (_contains sample_probe key_z populated_state) = Ok false
  ∧ fst (_get key_z populated_state) = Ok None
  ∧ fst (fst (nexts 2 _iterkeys populated_state)) = Ok [key_a; key_b]
  ∧ (let '(_, g, s) := next_ _iterkeys populated_state in
     let '(_, s) := _set key_z val_1 s in
     fst (fst (nexts 5 g s))) = Ok [key_b; key_c].
Proof. repeat split; vm_compute; reflexivity. Qed.

(** ** Where the table lives *)

Lemma split_without_sep c s : Pathlib.contains c s = false → Pathlib.split c s = [s].
Proof.
  induction s as [|a s IH]; simpl; [done|].
  destruct (decide (a = c)); [done|]. intros H. by rewrite (IH H).
Qed.

Lemma rfind_without c s : Pathlib.contains c s = false → Pathlib.rfind c s = None.
Proof.
  induction s as [|a s IH]; simpl; [done|].
  destruct (decide (a = c)); [done|]. intros H. by rewrite (IH H).
Qed.

Lemma splitroot_relative s : Pathlib.contains "/" s = false → Pathlib.splitroot s = "".
Proof.
  destruct s as [|a s]; simpl; [done|].
  destruct (decide (a = "/"%char)) as [->|Hne]; [done|]. intros _.
  destruct a as [[] [] [] [] [] [] [] []]; try done.
Qed.

Lemma prefix_slash_relative s :
  Pathlib.contains "/" s = false → String.prefix "/" s = false.
Proof.
  destruct s as [|a s]; [done|]. cbn [Pathlib.contains].
  destruct (decide (a = "/"%char)) as [->|Hne]; [done|]. intros _.
  change (String.prefix "/" (String a s))
    with (if ascii_dec "/"%char a then String.prefix "" s else false).
  destruct (ascii_dec "/"%char a); [congruence|done].
Qed.

Lemma length_append s t :
  String.length (s +:+ t) = (String.length s + String.length t)%nat.
Proof. induction s as [|a s IH]; simpl; [done|]. by rewrite IH. Qed.

Lemma append_inj_r t s1 s2 : s1 +:+ t = s2 +:+ t → s1 = s2.
Proof.
  revert s2. induction s1 as [|a s1 IH]; intros [|b s2] H.
  - done.
  - apply (f_equal String.length) in H.
    rewrite !length_append in H; simpl in H. lia.
  - apply (f_equal String.length) in H.
    rewrite !length_append in H; simpl in H. lia.
  - injection H as -> H. f_equal. by apply IH.
Qed.

Lemma plain_name_parse n :
  plain_name n = true →
  n ≠ "" ∧ Pathlib.contains "/" n = false ∧ Pathlib.contains "." n = false
  ∧ Pathlib.parse n = {| Pathlib.root := ""; Pathlib.parts := [n] |}.
Proof.
  unfold plain_name. rewrite !andb_true_iff, !negb_true_iff, bool_decide_eq_true.
  intros [[[Hne Hslash] Hdot] _]. repeat split; try done.
  unfold Pathlib.parse. rewrite splitroot_relative, split_without_sep by done.
  f_equal. rewrite filter_cons_True; [done|].
  split; [done|]. intros ->. done.
Qed.

Lemma filename_plain o :
  plain_name (url o) = true →
  filename o = Ok {| Pathlib.root := ""; Pathlib.parts := [url o +:+ ".db"] |}.
Proof.
  intros Hplain. destruct (plain_name_parse _ Hplain) as (Hne & _ & Hdot & Hparse).
  unfold filename. rewrite Hparse.
  unfold Pathlib.with_suffix, Pathlib.suffix, Pathlib.name; simpl.
  rewrite bool_decide_eq_false_2 by done.
  by rewrite (rfind_without _ _ Hdot).
Qed.

(** C9, as the code has it.  For a store made without a URL path and with a
    table name that is one path component without dot or percent sign, the
    directory is [<table-name>.db] directly under the application's table
    directory, and two such names never share a directory.  For a store made with a URL
    path, the directory is named after the URL path and does not depend on
    the table name. *)
Theorem table_directory app0 name0 kw :
  plain_name name0 = true →
  (∃ o, __init__ "" app0 name0 kw = Ok o
        ∧ path o = Ok {| Pathlib.root := Pathlib.root (tabledir app0);
                         Pathlib.parts :=
                           Pathlib.parts (tabledir app0) ++ [name0 +:+ ".db"] |}
        ∧ ∀ name1 o1, plain_name name1 = true →
                      __init__ "" app0 name1 kw = Ok o1 →
                      path o1 = path o → name1 = name0)
  ∧ (∀ url0 name1, url0 ≠ "" →
       ∃ o o1, __init__ url0 app0 name0 kw = Ok o
               ∧ __init__ url0 app0 name1 kw = Ok o1
               ∧ filename o = Pathlib.with_suffix (Pathlib.parse url0) ".db"
               ∧ path o1 = path o).
Proof.
  intros Hplain.
  assert (Hinit : ∀ n, plain_name n = true →
            ∃ o, __init__ "" app0 n kw = Ok o ∧ url o = n ∧ app o = app0).
  { intros n Hn. destruct (plain_name_parse _ Hn) as (_ & Hslash & _ & _).
    unfold __init__, url_div. rewrite (prefix_slash_relative _ Hslash).
    rewrite bool_decide_eq_true_2 by done. eauto. }
  assert (Hpath : ∀ n o, plain_name n = true → url o = n → app o = app0 →
            path o = Ok {| Pathlib.root := Pathlib.root (tabledir app0);
                           Pathlib.parts :=
                             Pathlib.parts (tabledir app0) ++ [n +:+ ".db"] |}).
  { intros n o Hn Hurl Happ. unfold path. rewrite <- Hurl in Hn.
    rewrite (filename_plain _ Hn), Hurl, Happ. done. }
  split.
  - destruct (Hinit _ Hplain) as (o & Ho & Hurl & Happ).
    exists o. split; [done|]. split; [by apply Hpath|].
    intros name1 o1 Hplain1 Ho1 Heq.
    destruct (Hinit _ Hplain1) as (o1' & Ho1' & Hurl1 & Happ1).
    rewrite Ho1 in Ho1'. injection Ho1' as <-.
    rewrite (Hpath _ _ Hplain1 Hurl1 Happ1), (Hpath _ _ Hplain Hurl Happ) in Heq.
    injection Heq as Heq. apply app_inv_head in Heq. injection Heq as Heq.
    by apply append_inj_r in Heq.
  - intros url0 name1 Hurl. unfold __init__.
    rewrite !bool_decide_eq_false_2 by done.
    eexists _, _. split; [done|]. split; [done|]. done.
Qed.

Lemma table_directory_witness :
  (∃ o, __init__ "" sample_app "orders" default_tuning = Ok o
        ∧ path o = Ok {| Pathlib.root := Pathlib.root (tabledir sample_app);
                         Pathlib.parts :=
                           Pathlib.parts (tabledir sample_app) ++ ["orders" +:+ ".db"] |}
        ∧ ∀ name1 o1, plain_name name1 = true →
                      __init__ "" sample_app name1 default_tuning = Ok o1 →
                      path o1 = path o → name1 = "orders")
  ∧ (∀ url0 name1, url0 ≠ "" →
       ∃ o o1, __init__ url0 sample_app "orders" default_tuning = Ok o
               ∧ __init__ url0 sample_app name1 default_tuning = Ok o1
               ∧ filename o = Pathlib.with_suffix (Pathlib.parse url0) ".db"
               ∧ path o1 = path o).
Proof.
  apply (table_directory sample_app "orders" default_tuning). reflexivity.
Defined.

(** C9, as stated, fails: a store made with the URL path ["events"] for the
    table ["orders"] lives in [events.db], not in [orders.db]. *)
Lemma url_path_names_directory :
  ∃ o, __init__ "events" sample_app "orders" default_tuning = Ok o
       ∧ table_name o = "orders"
       ∧ path o = Ok (Pathlib.parse "/var/faust/tables/events.db")
       ∧ path o ≠ Ok (Pathlib.parse "/var/faust/tables/orders.db").
Proof.
  eexists. split; [reflexivity|]. split; [reflexivity|]. split; [reflexivity|].
  apply neq_by_decide. vm_compute. reflexivity.
Qed.

(** A table name with a dot in it: [with_suffix] replaces what follows the
    last dot, so ["user.clicks"] and ["user.views"] both land in
    [user.db]. *)
Example dotted_table_names_collide :
  ∃ o1 o2, __init__ "" sample_app "user.clicks" default_tuning = Ok o1
           ∧ __init__ "" sample_app "user.views" default_tuning = Ok o2
           ∧ path o1 = Ok (Pathlib.parse "/var/faust/tables/user.db")
           ∧ path o2 = Ok (Pathlib.parse "/var/faust/tables/user.db").
Proof. eexists _, _. repeat split; reflexivity. Qed.

(** ** The methods on an open store

    Once the store is settled the methods keep it so: each one appends its
    engine calls to the log and leaves the table it produced. *)

Lemma settled_usable s ev loc t :
  store_location s = Ok loc →
  contents (settled s ev loc t) = Some t
  ∧ store_location (settled s ev loc t) = Ok loc.
Proof.
  intros Hl. split; [by apply contents_settled|by rewrite store_location_settled].
Qed.

Ltac on_settled spec :=
  let Hl := fresh "Hl" in
  intros Hl;
  match goal with
  | |- context [settled ?s ?ev ?loc ?t] =>
      destruct (settled_usable s ev loc t Hl) as [? ?];
      erewrite spec by eassumption;
      rewrite open_events_settled, settled_settled; reflexivity
  end.

Lemma _get_settled s ev loc t k :
  store_location s = Ok loc →
  _get k (settled s ev loc t)
  = (Ok (t !! k), settled s (ev ++ [Rocksdb.EvGet k]) loc t).
Proof. on_settled _get_spec. Qed.

Lemma _set_settled s ev loc t k v :
  store_location s = Ok loc →
  _set k v (settled s ev loc t)
  = (Ok tt, settled s (ev ++ [Rocksdb.EvPut k v]) loc (<[k := v]> t)).
Proof. on_settled _set_spec. Qed.

Lemma _del_settled s ev loc t k :
  store_location s = Ok loc →
  _del k (settled s ev loc t)
  = (Ok tt, settled s (ev ++ [Rocksdb.EvDelete k]) loc (delete k t)).
Proof. on_settled _del_spec. Qed.

Lemma _size_settled s ev loc t :
  store_location s = Ok loc →
  _size (settled s ev loc t)
  = (Ok (length (Rocksdb.entries t)),
     settled s (ev ++ [Rocksdb.EvIter Rocksdb.Keys]) loc t).
Proof. on_settled _size_spec. Qed.

Lemma entries_length t : length (Rocksdb.entries t) = size t.
Proof. rewrite entries_perm. apply length_map_to_list. Qed.

Lemma apply_raw_batch_inserts batch t :
  foldl Rocksdb.apply_op t (raw_batch batch)
  = foldl (λ t e, <[key (message e) := value (message e)]> t) t batch.
Proof. revert t. induction batch as [|e batch IH]; intros t; simpl; [done|apply IH]. Qed.

Section Probed.
Context (may_exist : gmap bytes bytes → bytes → bool).
Hypothesis no_false_negative : ∀ t k, is_Some (t !! k) → may_exist t k = true.

Lemma _contains_spec s t loc k :
  contents s = Some t → store_location s = Ok loc →
  _contains may_exist k s
  = (Ok (bool_decide (is_Some (t !! k))),
     settled s (open_events s ++ call_events may_exist (CContains k) t) loc t).
Proof.
  intros Hc Hl. unfold _contains, call_events.
  rewrite (bind_ok _ _ _ _ _ (db_at s t loc Hc Hl)).
  rewrite (bind_ok _ _ _ _ _ (key_may_exist_settled _ _ _ _ _ _)); simpl.
  destruct (may_exist t k) eqn:Hm.
  - rewrite (bind_ok _ _ _ _ _ (get_settled _ _ _ _ _)).
    unfold mret, ST_ret. rewrite <- app_assoc; simpl. do 2 f_equal.
    apply bool_decide_ext. by rewrite is_Some_alt; destruct (t !! k).
  - unfold mret, ST_ret. do 2 f_equal. symmetry. apply bool_decide_eq_false.
    intros Hs. apply no_false_negative in Hs. congruence.
Qed.

Lemma _contains_settled s ev loc t k :
  store_location s = Ok loc →
  _contains may_exist k (settled s ev loc t)
  = (Ok (bool_decide (is_Some (t !! k))),
     settled s (ev ++ call_events may_exist (CContains k) t) loc t).
Proof. on_settled _contains_spec. Qed.

(** One call: the answer and the table are the dictionary's. *)
Lemma call_spec c s t loc :
  contents s = Some t → store_location s = Ok loc →
  call may_exist c s
  = (Ok (dict_call c t).1,
     settled s (open_events s ++ call_events may_exist c t) loc (dict_call c t).2).
Proof.
  intros Hc Hl. destruct c; unfold call; simpl.
  - by rewrite (bind_ok _ _ _ _ _ (_get_spec s t loc Hc Hl k)).
  - by rewrite (bind_ok _ _ _ _ _ (_set_spec s t loc Hc Hl k v)).
  - by rewrite (bind_ok _ _ _ _ _ (_del_spec s t loc Hc Hl k)).
  - by rewrite (bind_ok _ _ _ _ _ (_contains_spec s t loc k Hc Hl)).
  - rewrite (bind_ok _ _ _ _ _ (_size_spec s t loc Hc Hl)).
    by rewrite entries_length.
  - by rewrite (bind_ok _ _ _ _ _ (_iterkeys_spec s t loc Hc Hl)).
  - by rewrite (bind_ok _ _ _ _ _ (_itervalues_spec s t loc Hc Hl)).
  - by rewrite (bind_ok _ _ _ _ _ (_iteritems_spec s t loc Hc Hl)).
  - rewrite (bind_ok _ _ _ _ _
               (apply_changelog_batch_spec batch to_key to_value s t loc Hc Hl)).
    by rewrite apply_raw_batch_inserts.
Qed.

Lemma calls_settled cs s ev loc t :
  store_location s = Ok loc →
  calls may_exist cs (settled s ev loc t)
  = (Ok (dict_calls cs t).1,
     settled s (ev ++ calls_events may_exist cs t) loc (dict_calls cs t).2).
Proof.
  intros Hl. revert ev t. induction cs as [|c cs IH]; intros ev t; simpl.
  - by rewrite app_nil_r.
  - destruct (settled_usable s ev loc t Hl) as [Hc' Hl'].
    rewrite (bind_ok _ _ _ _ _ (call_spec c _ _ _ Hc' Hl')).
    rewrite open_events_settled, settled_settled; simpl.
    rewrite (bind_ok _ _ _ _ _ (IH _ _)).
    destruct (dict_call c t) as [a t']; simpl.
    destruct (dict_calls cs t') as [rest t'']; simpl.
    by rewrite app_assoc.
Qed.

Lemma calls_events_not_open cs t :
  Forall (λ e, is_open_event e = false) (calls_events may_exist cs t).
Proof.
  revert t. induction cs as [|c cs IH]; intros t; simpl; [constructor|].
  apply Forall_app. split; [|apply IH].
  destruct c; simpl; repeat constructor.
  destruct (may_exist t k); repeat constructor.
Qed.

End Probed.

(** ** The store as a dictionary *)

(** X1. Any sequence of calls of the data methods ([_get], [_set], [_del],
    [_contains], [_size], the three iterations, [apply_changelog_batch]) on
    a usable store returns, call by call, what the same calls return on a
    dictionary that starts as the store's table, and leaves that dictionary
    as the store's table.  The engine is opened by the first call if it was
    not open, and by no call after it. *)
Theorem calls_refine_dict
    (may_exist : gmap bytes bytes → bytes → bool) cs s t :
  (∀ t k, is_Some (t !! k) → may_exist t k = true) →
  contents s = Some t →
  ∃ s', calls may_exist cs s = (Ok (dict_calls cs t).1, s')
        ∧ contents s' = Some (dict_calls cs t).2
        ∧ Rocksdb.trace (world s')
          = Rocksdb.trace (world s)
            ++ match cs with [] => [] | _ => open_events s end
            ++ calls_events may_exist cs t
        ∧ Forall (λ e, is_open_event e = false) (calls_events may_exist cs t).
Proof.
  intros Hprobe Hc. destruct (usable_location s t Hc) as [loc Hl].
  destruct cs as [|c cs].
  - exists s. simpl. rewrite app_nil_r. repeat split; [done|constructor].
  - exists (settled s (open_events s ++ calls_events may_exist (c :: cs) t) loc
                    (dict_calls (c :: cs) t).2).
    split.
    { cbn [calls].
      rewrite (bind_ok _ _ _ _ _ (call_spec may_exist Hprobe c s t loc Hc Hl)).
      rewrite (bind_ok _ _ _ _ _ (calls_settled may_exist Hprobe cs s _ loc _ Hl)).
      cbn [dict_calls calls_events]. destruct (dict_call c t) as [a t']; simpl.
      destruct (dict_calls cs t') as [rest t'']; simpl.
      by rewrite app_assoc. }
    split; [by apply contents_settled|]. split; [done|].
    apply calls_events_not_open.
Qed.

Lemma calls_refine_dict_witness :
  ∃ s', calls sample_probe
          [CSet key_a val_1; CContains key_z; CDel key_a; CSize] sample_state
        = (Ok (dict_calls [CSet key_a val_1; CContains key_z; CDel key_a; CSize] ∅).1, s')
        ∧ contents s'
          = Some (dict_calls [CSet key_a val_1; CContains key_z; CDel key_a; CSize] ∅).2
        ∧ Rocksdb.trace (world s')
          = Rocksdb.trace (world sample_state)
            ++ open_events sample_state
            ++ calls_events sample_probe
                 [CSet key_a val_1; CContains key_z; CDel key_a; CSize] ∅
        ∧ Forall (λ e, is_open_event e = false)
            (calls_events sample_probe
               [CSet key_a val_1; CContains key_z; CDel key_a; CSize] ∅).
Proof.
  apply (calls_refine_dict sample_probe
           [CSet key_a val_1; CContains key_z; CDel key_a; CSize] sample_state ∅).
  - exact sample_probe_no_false_negative.
  - reflexivity.
Defined.

(** ** Deleting, overwriting, counting *)

(** X2. [_del k] returns whether or not the key is there.  After it the key
    reads as absent and is not contained, every other key reads as before,
    and when the key was absent the table is what it was. *)
Theorem del_then_absent
    (may_exist : gmap bytes bytes → bytes → bool) s t k :
  (∀ t k, is_Some (t !! k) → may_exist t k = true) →
  contents s = Some t →
  ∃ s1, _del k s = (Ok tt, s1)
        ∧ contents s1 = Some (delete k t)
        ∧ fst (_get k s1) = Ok None
        ∧ fst (_contains may_exist k s1) = Ok false
        ∧ (∀ k', k' ≠ k → fst (_get k' s1) = Ok (t !! k'))
        ∧ (t !! k = None → contents s1 = Some t).
Proof.
  intros Hprobe Hc. destruct (usable_location s t Hc) as [loc Hl].
  eexists. split; [by apply _del_spec|].
  split; [by apply contents_settled|].
  split. { rewrite (_get_settled _ _ _ _ _ Hl); simpl. by rewrite lookup_delete_eq. }
  split. { rewrite (_contains_settled may_exist Hprobe _ _ _ _ _ Hl); simpl.
           by rewrite lookup_delete_eq. }
  split. { intros k' Hne. rewrite (_get_settled _ _ _ _ _ Hl); simpl.
           by rewrite lookup_delete_ne. }
  intros Hnone. rewrite (contents_settled _ _ _ _ Hl). by rewrite delete_id.
Qed.

Lemma populated_contents : contents populated_state = Some populated_table.
Proof.
  destruct (set_all_spec [(key_a, val_1); (key_c, val_3); (key_b, val_2)]
              sample_state ∅ (Pathlib.parse "/var/faust/tables/orders.db")
              eq_refl eq_refl) as (s' & Hset & Hc & _).
  unfold populated_state. rewrite Hset. exact Hc.
Qed.

Lemma del_then_absent_witness :
  ∃ s1, _del key_b populated_state = (Ok tt, s1)
        ∧ contents s1 = Some (delete key_b populated_table)
        ∧ fst (_get key_b s1) = Ok None
        ∧ fst (_contains sample_probe key_b s1) = Ok false
        ∧ (∀ k', k' ≠ key_b → fst (_get k' s1) = Ok (populated_table !! k'))
        ∧ (populated_table !! key_b = None → contents s1 = Some populated_table).
Proof.
  apply (del_then_absent sample_probe populated_state populated_table key_b).
  - exact sample_probe_no_false_negative.
  - exact populated_contents.
Defined.

(** X3. [_set] is an upsert that touches one key: the value set last is the
    one read, and a key other than the one set reads as before. *)
Theorem set_overwrites_one_key s t k v1 v2 :
  contents s = Some t →
  fst ((_set k v1;; _set k v2;; _get k) s) = Ok (Some v2)
  ∧ ∀ k', k' ≠ k → fst ((_set k v1;; _get k') s) = Ok (t !! k').
Proof.
  intros Hc. destruct (usable_location s t Hc) as [loc Hl]. split.
  - rewrite (bind_ok _ _ _ _ _ (_set_spec s t loc Hc Hl k v1)).
    rewrite (bind_ok _ _ _ _ _ (_set_settled _ _ _ _ _ _ Hl)).
    rewrite (_get_settled _ _ _ _ _ Hl); simpl. by rewrite lookup_insert_eq.
  - intros k' Hne.
    rewrite (bind_ok _ _ _ _ _ (_set_spec s t loc Hc Hl k v1)).
    rewrite (_get_settled _ _ _ _ _ Hl); simpl. by rewrite lookup_insert_ne.
Qed.

Lemma set_overwrites_one_key_witness :
  fst ((_set key_a val_1;; _set key_a val_2;; _get key_a) sample_state) = Ok (Some val_2)
  ∧ ∀ k', k' ≠ key_a →
          fst ((_set key_a val_1;; _get k') sample_state)
          = Ok ((∅ : gmap bytes bytes) !! k').
Proof.
  apply (set_overwrites_one_key sample_state ∅ key_a val_1 val_2). reflexivity.
Defined.

(** X4. [_size] is the number of keys that hold a value, which is also the
    length of the keys iteration.  Setting a new key raises it by one,
    setting a key again leaves it, deleting a key that is there lowers it by
    one, deleting one that is not leaves it. *)
Theorem size_counts_keys s t k v :
  contents s = Some t →
  fst (_size s) = Ok (size t)
  ∧ (∃ l, fst (list_of _iterkeys s) = Ok l ∧ length l = size t)
  ∧ fst ((_set k v;; _size) s)
    = Ok (if decide (is_Some (t !! k)) then size t else S (size t))
  ∧ fst ((_del k;; _size) s)
    = Ok (if decide (is_Some (t !! k)) then pred (size t) else size t).
Proof.
  intros Hc. destruct (usable_location s t Hc) as [loc Hl].
  split. { rewrite (_size_spec s t loc Hc Hl); simpl. by rewrite entries_length. }
  split. { eexists. rewrite (_iterkeys_spec s t loc Hc Hl); simpl.
           split; [done|]. by rewrite length_fmap, entries_length. }
  split.
  - rewrite (bind_ok _ _ _ _ _ (_set_spec s t loc Hc Hl k v)).
    rewrite (_size_settled _ _ _ _ Hl); simpl. rewrite entries_length. f_equal.
    destruct (decide (is_Some (t !! k))) as [Hs|Hn].
    + by apply map_size_insert_Some.
    + apply map_size_insert_None. by apply eq_None_not_Some.
  - rewrite (bind_ok _ _ _ _ _ (_del_spec s t loc Hc Hl k)).
    rewrite (_size_settled _ _ _ _ Hl); simpl. rewrite entries_length. f_equal.
    destruct (decide (is_Some (t !! k))) as [Hs|Hn].
    + rewrite map_size_delete_Some by done. lia.
    + apply map_size_delete_None. by apply eq_None_not_Some.
Qed.

Lemma size_counts_keys_witness :
  fst (_size populated_state) = Ok (size populated_table)
  ∧ (∃ l, fst (list_of _iterkeys populated_state) = Ok l
          ∧ length l = size populated_table)
  ∧ fst ((_set key_z val_1;; _size) populated_state)
    = Ok (if decide (is_Some (populated_table !! key_z))
          then size populated_table else S (size populated_table))
  ∧ fst ((_del key_z;; _size) populated_state)
    = Ok (if decide (is_Some (populated_table !! key_z))
          then pred (size populated_table) else size populated_table).
Proof.
  apply (size_counts_keys populated_state populated_table key_z val_1).
  exact populated_contents.
Defined.

(** ** A batch and the same records set one by one *)

Lemma set_all_settled kvs s ev loc t :
  store_location s = Ok loc →
  set_all kvs (settled s ev loc t)
  = (Ok tt, settled s (ev ++ map (λ kv, Rocksdb.EvPut (kv.1) (kv.2)) kvs) loc
                    (foldl (λ t kv, <[kv.1 := kv.2]> t) t kvs)).
Proof.
  intros Hl. revert ev t. induction kvs as [|[k v] kvs IH]; intros ev t; simpl.
  - by rewrite app_nil_r.
  - rewrite (bind_ok _ _ _ _ _ (_set_settled _ _ _ _ _ _ Hl)).
    rewrite IH. by rewrite <- app_assoc.
Qed.

(** X5. [apply_changelog_batch] leaves the table that setting the records
    one by one, in order, leaves; it reaches the engine with one write where
    the loop of [_set] makes one put per record. *)
Theorem batch_as_sets batch to_key to_value s t :
  contents s = Some t →
  ∃ s1 s2,
    apply_changelog_batch batch to_key to_value s = (Ok tt, s1)
    ∧ set_all (map (λ e, (key (message e), value (message e))) batch) s = (Ok tt, s2)
    ∧ contents s1 = contents s2
    ∧ Rocksdb.trace (world s1)
      = Rocksdb.trace (world s) ++ open_events s
        ++ [Rocksdb.EvWrite (raw_batch batch)]
    ∧ Rocksdb.trace (world s2)
      = Rocksdb.trace (world s)
        ++ match batch with [] => [] | _ => open_events s end
        ++ map (λ e, Rocksdb.EvPut (key (message e)) (value (message e))) batch.
Proof.
  intros Hc. destruct (usable_location s t Hc) as [loc Hl].
  assert (Hfold : ∀ (b : list EventT) t0,
    foldl (λ t kv, <[kv.1 := kv.2]> t) t0
          (map (λ e, (key (message e), value (message e))) b)
    = foldl Rocksdb.apply_op t0 (raw_batch b)).
  { induction b as [|e b IH]; intros t0; simpl; [done|apply IH]. }
  destruct batch as [|e batch].
  - eexists _, s. split; [by apply apply_changelog_batch_spec|].
    split; [done|]. split; [by rewrite (contents_settled _ _ _ _ Hl)|].
    split; [done|]. simpl. by rewrite app_nil_r.
  - eexists _, _. split; [by apply apply_changelog_batch_spec|].
    split.
    { cbn [map set_all].
      rewrite (bind_ok _ _ _ _ _ (_set_spec s t loc Hc Hl _ _)).
      apply (set_all_settled _ _ _ _ _ Hl). }
    split.
    { rewrite !(contents_settled _ _ _ _ Hl). f_equal.
      rewrite Hfold. done. }
    split; [done|]. simpl. rewrite <- !app_assoc. simpl.
    by rewrite map_map.
Qed.

Lemma batch_as_sets_witness :
  ∃ s1 s2,
    apply_changelog_batch sample_batch sample_to_key sample_to_value sample_state
    = (Ok tt, s1)
    ∧ set_all (map (λ e, (key (message e), value (message e))) sample_batch)
              sample_state = (Ok tt, s2)
    ∧ contents s1 = contents s2
    ∧ Rocksdb.trace (world s1)
      = Rocksdb.trace (world sample_state) ++ open_events sample_state
        ++ [Rocksdb.EvWrite (raw_batch sample_batch)]
    ∧ Rocksdb.trace (world s2)
      = Rocksdb.trace (world sample_state)
        ++ match sample_batch with [] => [] | _ => open_events sample_state end
        ++ map (λ e, Rocksdb.EvPut (key (message e)) (value (message e))) sample_batch.
Proof.
  apply (batch_as_sets sample_batch sample_to_key sample_to_value sample_state ∅).
  reflexivity.
Defined.

(** ** When the engine does not open *)

Lemma db_unopenable s p cause :
  _db (self s) = None →
  path (self s) = Ok p →
  Rocksdb.disk (world s) !! Pathlib.absolute (Rocksdb.cwd (world s)) p
  = Some (Rocksdb.Unopenable cause) →
  db s = (Raise (RocksError cause),
          {| self := self s;
             world := Rocksdb.log (Rocksdb.EvOpen p (_options (self s))) (world s) |}).
Proof.
  intros Hdb Hp Hd.
  unfold db, _open_db, attr, prop, extern, Rocksdb.open, mbind, ST_bind,
    mret, ST_ret; simpl. rewrite Hdb, Hp; simpl. by rewrite Hd.
Qed.

(** A generator whose first [next] cannot obtain the handle raises what
    [db] raises. *)
Lemma list_of_raise {A} (g : Generator A) s e s' :
  gen_state g = Fresh → db s = (Raise e, s') → list_of g s = (Raise e, s').
Proof.
  intros Hg Hdb. unfold list_of, next_. rewrite Hg.
  by rewrite (bind_raise _ _ _ _ _ Hdb).
Qed.

(** X6. When the engine refuses to open the directory, every data method
    raises the engine's error after the one attempt to open: nothing is
    written (the batch is not committed, the disk is as it was), [_contains]
    raises like the rest and does not answer false, and the handle stays
    absent. *)
Theorem open_failure_writes_nothing
    (may_exist : gmap bytes bytes → bytes → bool) s p cause :
  _db (self s) = None →
  path (self s) = Ok p →
  Rocksdb.disk (world s) !! Pathlib.absolute (Rocksdb.cwd (world s)) p
  = Some (Rocksdb.Unopenable cause) →
  ∃ s', _db (self s') = None
        ∧ Rocksdb.disk (world s') = Rocksdb.disk (world s)
        ∧ Rocksdb.trace (world s')
          = Rocksdb.trace (world s) ++ [Rocksdb.EvOpen p (_options (self s))]
        ∧ (∀ batch to_key to_value,
             apply_changelog_batch batch to_key to_value s
             = (Raise (RocksError cause), s'))
        ∧ (∀ k, _del k s = (Raise (RocksError cause), s'))
        ∧ (∀ k, _contains may_exist k s = (Raise (RocksError cause), s'))
        ∧ _size s = (Raise (RocksError cause), s')
        ∧ list_of _iterkeys s = (Raise (RocksError cause), s')
        ∧ list_of _itervalues s = (Raise (RocksError cause), s')
        ∧ list_of _iteritems s = (Raise (RocksError cause), s').
Proof.
  intros Hdb Hp Hd. pose proof (db_unopenable s p cause Hdb Hp Hd) as Hopen.
  exists {| self := self s;
            world := Rocksdb.log (Rocksdb.EvOpen p (_options (self s))) (world s) |}.
  split; [exact Hdb|]. split; [done|]. split; [done|].
  repeat split; intros;
    unfold apply_changelog_batch, _del, _contains, _size;
    try (by rewrite (bind_raise _ _ _ _ _ Hopen));
    by apply list_of_raise.
Qed.

Lemma open_failure_writes_nothing_witness :
  ∃ s', _db (self s') = None
        ∧ Rocksdb.disk (world s') = Rocksdb.disk (world locked_state)
        ∧ Rocksdb.trace (world s')
          = Rocksdb.trace (world locked_state)
            ++ [Rocksdb.EvOpen (Pathlib.parse "/var/faust/tables/orders.db")
                  (_options (self locked_state))]
        ∧ (∀ batch to_key to_value,
             apply_changelog_batch batch to_key to_value locked_state
             = (Raise (RocksError "IO error: lock hold by current process"), s'))
        ∧ (∀ k, _del k locked_state
                = (Raise (RocksError "IO error: lock hold by current process"), s'))
        ∧ (∀ k, _contains sample_probe k locked_state
                = (Raise (RocksError "IO error: lock hold by current process"), s'))
        ∧ _size locked_state
          = (Raise (RocksError "IO error: lock hold by current process"), s')
        ∧ list_of _iterkeys locked_state
          = (Raise (RocksError "IO error: lock hold by current process"), s')
        ∧ list_of _itervalues locked_state
          = (Raise (RocksError "IO error: lock hold by current process"), s')
        ∧ list_of _iteritems locked_state
          = (Raise (RocksError "IO error: lock hold by current process"), s').
Proof.
  apply (open_failure_writes_nothing sample_probe locked_state
           (Pathlib.parse "/var/faust/tables/orders.db")
           "IO error: lock hold by current process"); reflexivity.
Defined.

(** ** After a reset *)

(** X7. A reset forgets every key and leaves a store that works, provided
    nothing stands in the way of the removal, no iterator keeps the database
    object alive and the directory in which the store's directory is made
    exists: right after [reset_state] any key reads as absent and is not
    contained, although no handle is open: the read reopens the engine on
    the path just removed.  A value set after the reset is read back, and is
    then the only entry. *)
Theorem reset_forgets_and_reopens
    (may_exist : gmap bytes bytes → bytes → bool) s p k v :
  let loc := Pathlib.absolute (Rocksdb.cwd (world s)) p in
  (∀ t k, is_Some (t !! k) → may_exist t k = true) →
  path (self s) = Ok p →
  Pathlib.is_absolute (Rocksdb.cwd (world s)) = true →
  removable s loc →
  unshared s loc →
  Rocksdb.dir_exists (world s) (Rocksdb.parent loc) = true →
  fst ((reset_state;; _get k) s) = Ok None
  ∧ fst ((reset_state;; _contains may_exist k) s) = Ok false
  ∧ fst ((reset_state;; _set k v;; _get k) s) = Ok (Some v)
  ∧ fst ((reset_state;; _set k v;; _size) s) = Ok 1%nat
  ∧ Rocksdb.trace (world (snd ((reset_state;; _get k) s)))
    = Rocksdb.trace (world s)
      ++ [Rocksdb.EvRmtree loc;
          Rocksdb.EvOpen p (_options (self s));
          Rocksdb.EvGet k].
Proof.
  intros loc Hprobe Hp Hcwd Hrm Hu Hpar.
  pose proof (reset_state_spec s p Hp Hcwd Hrm) as Hreset. fold loc in Hreset.
  destruct (after_reset_usable s p Hp Hu Hpar) as (Hc & Hl & Hev).
  fold loc in Hc, Hl, Hev.
  rewrite !(bind_ok _ _ _ _ _ Hreset).
  split. { by rewrite (_get_spec _ ∅ _ Hc Hl). }
  split. { by rewrite (_contains_spec may_exist Hprobe _ ∅ _ k Hc Hl). }
  split. { rewrite (bind_ok _ _ _ _ _ (_set_spec _ ∅ _ Hc Hl k v)).
           rewrite (_get_settled _ _ _ _ _ Hl); simpl. by rewrite lookup_insert_eq. }
  split. { rewrite (bind_ok _ _ _ _ _ (_set_spec _ ∅ _ Hc Hl k v)).
           rewrite (_size_settled _ _ _ _ Hl); simpl.
           rewrite entries_length, map_size_insert_None by done.
           by rewrite map_size_empty. }
  rewrite (_get_spec _ ∅ _ Hc Hl); simpl. rewrite Hev.
  by rewrite <- app_assoc.
Qed.

Lemma reset_forgets_and_reopens_witness :
  fst ((reset_state;; _get key_a) populated_state) = Ok None
  ∧ fst ((reset_state;; _contains sample_probe key_a) populated_state) = Ok false
  ∧ fst ((reset_state;; _set key_a val_2;; _get key_a) populated_state) = Ok (Some val_2)
  ∧ fst ((reset_state;; _set key_a val_2;; _size) populated_state) = Ok 1%nat
  ∧ Rocksdb.trace (world (snd ((reset_state;; _get key_a) populated_state)))
    = Rocksdb.trace (world populated_state)
      ++ [Rocksdb.EvRmtree (Pathlib.absolute (Rocksdb.cwd (world populated_state))
                              (Pathlib.parse "/var/faust/tables/orders.db"));
          Rocksdb.EvOpen (Pathlib.parse "/var/faust/tables/orders.db")
            (_options (self populated_state));
          Rocksdb.EvGet key_a].
Proof.
  apply (reset_forgets_and_reopens sample_probe populated_state
           (Pathlib.parse "/var/faust/tables/orders.db") key_a val_2).
  - exact sample_probe_no_false_negative.
  - vm_compute; reflexivity.
  - vm_compute; reflexivity.
  - apply (bool_decide_unpack _); vm_compute; exact I.
  - apply (bool_decide_unpack _); vm_compute; exact I.
  - vm_compute; reflexivity.
Defined.

(** X8. When nothing stands in the way of the removal, a second
    [reset_state] in a row returns as well (the directory is already gone,
    which is not an error) and changes neither the object nor the disk; it
    only asks the file system once more. *)
Theorem reset_state_twice s p :
  path (self s) = Ok p →
  Pathlib.is_absolute (Rocksdb.cwd (world s)) = true →
  removable s (Pathlib.absolute (Rocksdb.cwd (world s)) p) →
  ∃ s1 s2, reset_state s = (Ok tt, s1)
           ∧ reset_state s1 = (Ok tt, s2)
           ∧ self s2 = self s1
           ∧ Rocksdb.disk (world s2) = Rocksdb.disk (world s1)
           ∧ Rocksdb.trace (world s2)
             = Rocksdb.trace (world s1)
               ++ [Rocksdb.EvRmtree (Pathlib.absolute (Rocksdb.cwd (world s)) p)].
Proof.
  intros Hp Hcwd Hrm.
  set (loc := Pathlib.absolute (Rocksdb.cwd (world s)) p) in *.
  set (s1 := after_reset s loc).
  assert (Hp1 : path (self s1) = Ok p) by (unfold s1; simpl; by rewrite path_with_db).
  assert (Hcwd1 : Pathlib.is_absolute (Rocksdb.cwd (world s1)) = true) by done.
  assert (Hd1 : Rocksdb.disk (world s1) !! loc = None) by apply after_reset_disk_loc.
  assert (Hrm1 : removable s1 (Pathlib.absolute (Rocksdb.cwd (world s1)) p)).
  { unfold removable. change (Rocksdb.cwd (world s1)) with (Rocksdb.cwd (world s)).
    fold loc. by rewrite Hd1. }
  exists s1, (after_reset s1 loc).
  split; [by apply reset_state_spec|].
  split; [exact (reset_state_spec s1 p Hp1 Hcwd1 Hrm1)|].
  split. { unfold after_reset at 1; simpl. unfold s1; simpl. apply with_db_idem. }
  split. { unfold after_reset at 1; cbn [world Rocksdb.disk]. by rewrite Hd1. }
  done.
Qed.

Lemma reset_state_twice_witness :
  ∃ s1 s2, reset_state populated_state = (Ok tt, s1)
           ∧ reset_state s1 = (Ok tt, s2)
           ∧ self s2 = self s1
           ∧ Rocksdb.disk (world s2) = Rocksdb.disk (world s1)
           ∧ Rocksdb.trace (world s2)
             = Rocksdb.trace (world s1)
               ++ [Rocksdb.EvRmtree
                     (Pathlib.absolute (Rocksdb.cwd (world populated_state))
                        (Pathlib.parse "/var/faust/tables/orders.db"))].
Proof.
  apply (reset_state_twice populated_state
           (Pathlib.parse "/var/faust/tables/orders.db")).
  - vm_compute; reflexivity.
  - vm_compute; reflexivity.
  - apply (bool_decide_unpack _); vm_compute; exact I.
Defined.

(** X9. The first access creates the store's directory, and that directory
    only.  On a store without handle whose directory does not exist and on
    which no database object is alive: if the directory it is to be made in
    exists, a mere read returns "absent" and leaves an empty database at the
    store's location, with the handle open on it (the options always ask for
    [create_if_missing]); if not, the read raises the error the engine has
    for the directory it cannot make, makes nothing, and the handle stays
    absent. *)
Theorem first_read_creates_directory s p k :
  let loc := Pathlib.absolute (Rocksdb.cwd (world s)) p in
  _db (self s) = None →
  path (self s) = Ok p →
  Rocksdb.disk (world s) !! loc = None →
  Rocksdb.handles (world s) !! loc = None →
  ∃ s', Rocksdb.trace (world s')
        = Rocksdb.trace (world s)
          ++ Rocksdb.EvOpen p (_options (self s))
             :: (if Rocksdb.dir_exists (world s) (Rocksdb.parent loc)
                 then [Rocksdb.EvGet k] else [])
        ∧ if Rocksdb.dir_exists (world s) (Rocksdb.parent loc)
          then _get k s = (Ok None, s')
               ∧ Rocksdb.disk (world s') = <[loc := Rocksdb.Db ∅]> (Rocksdb.disk (world s))
               ∧ _db (self s') = Some {| Rocksdb.location := loc |}
          else _get k s
               = (Raise (RocksError
                           (Rocksdb.mkdir_error (world s) (Rocksdb.parent loc))), s')
               ∧ Rocksdb.disk (world s') = Rocksdb.disk (world s)
               ∧ _db (self s') = None.
Proof.
  intros loc Hdb Hp Hd Hh.
  assert (Hl : store_location s = Ok loc).
  { unfold store_location. by rewrite Hp. }
  destruct (Rocksdb.dir_exists (world s) (Rocksdb.parent loc)) eqn:Hpar.
  - assert (Hc : contents s = Some ∅).
    { unfold contents. by rewrite Hl, Hdb, Hh, Hd, Hpar. }
    eexists. split; [|split; [by rewrite (_get_spec s ∅ _ Hc Hl)|]].
    + simpl. unfold open_events. by rewrite Hdb, Hp.
    + split; [done|]. simpl. by destruct (self s).
  - exists {| self := self s;
              world := Rocksdb.log (Rocksdb.EvOpen p (_options (self s))) (world s) |}.
    split; [done|]. split; [|done].
    unfold _get, db, _open_db, attr, prop, extern, Rocksdb.open,
      mbind, ST_bind, mret, ST_ret; cbn [self world]. rewrite Hdb, Hp.
    cbn [Rocksdb.log Rocksdb.cwd Rocksdb.disk Rocksdb.handles _options
         Rocksdb.create_if_missing].
    fold loc. rewrite Hd.
    replace (Rocksdb.dir_exists _ (Rocksdb.parent loc)) with false; done.
Qed.

Lemma first_read_creates_directory_witness :
  (∃ s', Rocksdb.trace (world s')
         = Rocksdb.trace (world sample_state)
           ++ [Rocksdb.EvOpen (Pathlib.parse "/var/faust/tables/orders.db")
                 (_options (self sample_state)); Rocksdb.EvGet key_a]
         ∧ _get key_a sample_state = (Ok None, s')
         ∧ Rocksdb.disk (world s')
           = <[Pathlib.parse "/var/faust/tables/orders.db" := Rocksdb.Db ∅]>
               (Rocksdb.disk (world sample_state))
         ∧ _db (self s')
           = Some {| Rocksdb.location := Pathlib.parse "/var/faust/tables/orders.db" |})
  ∧ (∃ s', Rocksdb.trace (world s')
           = Rocksdb.trace (world orphan_state)
             ++ [Rocksdb.EvOpen (Pathlib.parse "/var/faust/tables/orders.db")
                   (_options (self orphan_state))]
           ∧ _get key_a orphan_state
             = (Raise (RocksError "IO error: No such file or directory"), s')
           ∧ Rocksdb.disk (world s') = Rocksdb.disk (world orphan_state)
           ∧ _db (self s') = None).
Proof.
  split.
  - apply (first_read_creates_directory sample_state
             (Pathlib.parse "/var/faust/tables/orders.db") key_a); reflexivity.
  - apply (first_read_creates_directory orphan_state
             (Pathlib.parse "/var/faust/tables/orders.db") key_a); reflexivity.
Defined.

(** ** More on the path *)

(** [filename] either has no name to work on, or keeps the root of the URL
    path and ends in a component made of a stem and [.db]. *)
Lemma filename_spec o :
  (Pathlib.name (Pathlib.parse (url o)) = ""
   ∧ filename o = Raise (ValueError "has an empty name"))
  ∨ (Pathlib.name (Pathlib.parse (url o)) ≠ ""
     ∧ ∃ stem,
         filename o
         = Ok {| Pathlib.root := Pathlib.splitroot (url o);
                 Pathlib.parts :=
                   removelast (Pathlib.parts (Pathlib.parse (url o)))
                   ++ [stem +:+ ".db"] |}).
Proof.
  unfold filename, Pathlib.with_suffix.
  replace (Pathlib.contains "/" ".db") with false by reflexivity.
  replace (bool_decide (".db" ≠ "" ∧ String.prefix "." ".db" = false ∨ ".db" = "."))
    with false by reflexivity.
  cbv zeta. case_bool_decide as Hn; [by left|]. right. split; [done|].
  case_bool_decide; eexists; reflexivity.
Qed.

Lemma splitroot_prefix u :
  Pathlib.splitroot u ≠ "" ↔ String.prefix "/" u = true.
Proof.
  destruct u as [|a u]; [done|].
  change (String.prefix "/" (String a u))
    with (if ascii_dec "/"%char a then String.prefix "" u else false).
  destruct (ascii_dec "/"%char a) as [<-|Hne].
  - split; [by destruct u|intros _].
    destruct u as [|b u]; [done|].
    destruct (decide (b = "/"%char)) as [->|Hb].
    + destruct u as [|c u]; [done|].
      destruct (decide (c = "/"%char)) as [->|Hc]; [done|].
      destruct c as [[] [] [] [] [] [] [] []]; done.
    + destruct b as [[] [] [] [] [] [] [] []]; done.
  - split; [|done]. intros H. destruct H.
    destruct a as [[] [] [] [] [] [] [] []]; done.
Qed.

(** X10. A store whose URL path has no final component (such as the one
    made with neither URL path nor table name) has no path: evaluating it
    raises [ValueError].  Every access to [db] then raises that error before
    the engine is asked anything, so do the data methods, and [reset_state]
    raises it too, since only a missing directory is forgiven there. *)
Theorem nameless_store_raises s e :
  path (self s) = Raise e →
  _db (self s) = None →
  e = ValueError "has an empty name"
  ∧ Pathlib.name (Pathlib.parse (url (self s))) = ""
  ∧ db s = (Raise e, s)
  ∧ (∀ k, _get k s = (Raise e, s))
  ∧ (∀ k v, _set k v s = (Raise e, s))
  ∧ (∀ k, _del k s = (Raise e, s))
  ∧ (∀ batch to_key to_value,
       apply_changelog_batch batch to_key to_value s = (Raise e, s))
  ∧ _size s = (Raise e, s)
  ∧ reset_state s = (Raise e, s).
Proof.
  intros Hp Hdb.
  assert (He : e = ValueError "has an empty name"
               ∧ Pathlib.name (Pathlib.parse (url (self s))) = "").
  { unfold path in Hp. destruct (filename_spec (self s)) as [[Hn Hf]|[_ [stem Hf]]];
      rewrite Hf in Hp; [|done]. by injection Hp as <-. }
  destruct He as [He Hn]. split; [done|]. split; [done|].
  assert (Hopen : db s = (Raise e, s)).
  { unfold db, _open_db, attr, prop, mbind, ST_bind. by rewrite Hdb, Hp. }
  split; [done|].
  repeat split; intros;
    try (unfold _get, _set, _del, apply_changelog_batch, _size;
         by rewrite (bind_raise _ _ _ _ _ Hopen)).
  unfold reset_state, assign_db, suppress, prop, mbind, ST_bind; simpl.
  rewrite path_with_db, Hp. rewrite He.
  destruct s as [o w]; simpl in *. rewrite Hdb.
  rewrite <- Hdb at 1. by rewrite with_db_id.
Qed.

Lemma nameless_store_raises_witness :
  ValueError "has an empty name" = ValueError "has an empty name"
  ∧ Pathlib.name (Pathlib.parse (url (self nameless_state))) = ""
  ∧ db nameless_state = (Raise (ValueError "has an empty name"), nameless_state)
  ∧ (∀ k, _get k nameless_state
          = (Raise (ValueError "has an empty name"), nameless_state))
  ∧ (∀ k v, _set k v nameless_state
            = (Raise (ValueError "has an empty name"), nameless_state))
  ∧ (∀ k, _del k nameless_state
          = (Raise (ValueError "has an empty name"), nameless_state))
  ∧ (∀ batch to_key to_value,
       apply_changelog_batch batch to_key to_value nameless_state
       = (Raise (ValueError "has an empty name"), nameless_state))
  ∧ _size nameless_state = (Raise (ValueError "has an empty name"), nameless_state)
  ∧ reset_state nameless_state
    = (Raise (ValueError "has an empty name"), nameless_state).
Proof.
  apply (nameless_store_raises nameless_state (ValueError "has an empty name"));
    reflexivity.
Defined.

(** X11. Where the directory is put depends on the URL path alone: a URL
    path that starts with a slash is taken as it is, with its suffix, and the
    application's table directory plays no part; any other URL path is
    placed under the table directory. *)
Theorem url_path_placement o f :
  filename o = Ok f →
  (String.prefix "/" (url o) = true → path o = Ok f)
  ∧ (String.prefix "/" (url o) = false →
     path o = Ok {| Pathlib.root := Pathlib.root (tabledir (app o));
                    Pathlib.parts := Pathlib.parts (tabledir (app o)) ++ Pathlib.parts f |}).
Proof.
  intros Hf.
  assert (Hroot : Pathlib.root f = Pathlib.splitroot (url o)).
  { destruct (filename_spec o) as [[_ Hf']|[_ [stem Hf']]]; rewrite Hf' in Hf;
      [done|]. by injection Hf as <-. }
  unfold path. rewrite Hf. unfold Pathlib.truediv, Pathlib.is_absolute.
  rewrite Hroot. split; intros Hpre.
  - rewrite bool_decide_eq_true_2; [done|]. by apply splitroot_prefix.
  - rewrite bool_decide_eq_false_2; [done|].
    rewrite splitroot_prefix. by rewrite Hpre.
Qed.

Lemma url_path_placement_witness :
  (String.prefix "/" (url rooted_store) = true →
   path rooted_store = Ok (Pathlib.parse "/data/orders.db"))
  ∧ (String.prefix "/" (url rooted_store) = false →
     path rooted_store
     = Ok {| Pathlib.root := Pathlib.root (tabledir (app rooted_store));
             Pathlib.parts :=
               Pathlib.parts (tabledir (app rooted_store))
               ++ Pathlib.parts (Pathlib.parse "/data/orders.db") |}).
Proof.
  apply (url_path_placement rooted_store (Pathlib.parse "/data/orders.db")).
  reflexivity.
Defined.

(** X12. The suffix is fixed: whenever the store has a path, the name of its
    directory ends in [.db]. *)
Theorem directory_name_ends_in_db o p :
  path o = Ok p → ∃ stem, Pathlib.name p = stem +:+ ".db".
Proof.
  unfold path. intros Hp.
  destruct (filename_spec o) as [[_ Hf]|[_ [stem Hf]]]; rewrite Hf in Hp; [done|].
  injection Hp as <-. exists stem.
  unfold Pathlib.truediv, Pathlib.name.
  destruct (Pathlib.is_absolute _); simpl.
  - by rewrite last_snoc.
  - by rewrite app_assoc, last_snoc.
Qed.

Lemma directory_name_ends_in_db_witness :
  ∃ stem, Pathlib.name (Pathlib.parse "/var/faust/tables/orders.db") = stem +:+ ".db".
Proof.
  apply (directory_name_ends_in_db sample_store
           (Pathlib.parse "/var/faust/tables/orders.db")).
  reflexivity.
Defined.

(** ** What the methods leave alone *)

Lemma open_store s t h loc :
  contents s = Some t → store_location s = Ok loc → _db (self s) = Some h →
  h = {| Rocksdb.location := loc |}
  ∧ Rocksdb.disk (world s) !! loc = Some (Rocksdb.Db t)
  ∧ open_events s = [].
Proof.
  unfold contents, open_events. intros Hc Hl Hdb. rewrite Hl, Hdb in Hc.
  rewrite Hdb.
  destruct (Rocksdb.handles (world s) !! loc) as [[|n]|]; try done.
  destruct (Rocksdb.disk (world s) !! loc) as [[t'| | | |]|]; try done.
  destruct (decide (Rocksdb.location h = loc)) as [<-|]; [|done].
  simplify_eq. by destruct h.
Qed.

Lemma settled_open_store s ev loc t :
  _db (self s) = Some {| Rocksdb.location := loc |} →
  Rocksdb.disk (world s) !! loc = Some (Rocksdb.Db t) →
  self (settled s ev loc t) = self s
  ∧ Rocksdb.disk (world (settled s ev loc t)) = Rocksdb.disk (world s).
Proof.
  intros Hdb Hd. unfold settled; simpl. split.
  - rewrite <- Hdb. apply with_db_id.
  - by apply insert_id.
Qed.

(** X13. On a store that is open, a call that only reads ([_get],
    [_contains], [_size], the iterations) changes neither the object nor
    anything on disk, and does not open the engine again: the log of engine
    calls grows by the call's own reads and that is all. *)
Theorem reads_change_nothing
    (may_exist : gmap bytes bytes → bytes → bool) c s t h :
  (∀ t k, is_Some (t !! k) → may_exist t k = true) →
  contents s = Some t →
  _db (self s) = Some h →
  is_read c = true →
  ∃ s', call may_exist c s = (Ok (dict_call c t).1, s')
        ∧ self s' = self s
        ∧ Rocksdb.disk (world s') = Rocksdb.disk (world s)
        ∧ Rocksdb.trace (world s')
          = Rocksdb.trace (world s) ++ call_events may_exist c t.
Proof.
  intros Hprobe Hc Hdb Hread. destruct (usable_location s t Hc) as [loc Hl].
  destruct (open_store s t h loc Hc Hl Hdb) as (-> & Hd & Hev).
  eexists. split; [by apply call_spec|].
  assert (Ht : (dict_call c t).2 = t) by (by destruct c).
  rewrite Ht, Hev.
  destruct (settled_open_store s ([] ++ call_events may_exist c t) loc t Hdb Hd)
    as [Hself Hdisk].
  done.
Qed.

Lemma reads_change_nothing_witness :
  ∃ s', call sample_probe (CContains key_z)
          (settled sample_state [] (Pathlib.parse "/var/faust/tables/orders.db") ∅)
        = (Ok (dict_call (CContains key_z) ∅).1, s')
        ∧ self s'
          = self (settled sample_state []
                    (Pathlib.parse "/var/faust/tables/orders.db") ∅)
        ∧ Rocksdb.disk (world s')
          = Rocksdb.disk
              (world (settled sample_state []
                        (Pathlib.parse "/var/faust/tables/orders.db") ∅))
        ∧ Rocksdb.trace (world s')
          = Rocksdb.trace
              (world (settled sample_state []
                        (Pathlib.parse "/var/faust/tables/orders.db") ∅))
            ++ call_events sample_probe (CContains key_z) ∅.
Proof.
  apply (reads_change_nothing sample_probe (CContains key_z)
           (settled sample_state [] (Pathlib.parse "/var/faust/tables/orders.db") ∅)
           ∅ {| Rocksdb.location := Pathlib.parse "/var/faust/tables/orders.db" |}).
  - exact sample_probe_no_false_negative.
  - reflexivity.
  - reflexivity.
  - reflexivity.
Defined.

(** A reset leaves alone what is not in the store's tree, whether it
    returns or raises. *)
Lemma reset_state_disk_other s p other :
  path (self s) = Ok p →
  Pathlib.is_absolute (Rocksdb.cwd (world s)) = true →
  let loc := Pathlib.absolute (Rocksdb.cwd (world s)) p in
  ¬ Rocksdb.under loc other →
  Rocksdb.disk (world (snd (reset_state s))) !! other
  = Rocksdb.disk (world s) !! other
  ∧ ((∃ e, fst (reset_state s) = Raise e)
     ∨ reset_state s = (Ok tt, after_reset s loc)).
Proof.
  intros Hp Hcwd loc Hother.
  rewrite (reset_state_unfold s p Hp Hcwd). cbv zeta. fold loc.
  pose proof (after_reset_disk_other s loc other Hother) as Hsame.
  destruct (Rocksdb.disk (world s) !! loc) as [[]|]; try case_bool_decide;
    (split; [done|]); (by right) || (left; by eexists).
Qed.

(** X14. A store touches no directory outside its own tree: whatever calls
    are made on it, and also when it is reset, whether the reset returns or
    raises, every directory that is neither the store's nor beneath it is
    what it was; so it is after the calls that follow a reset, when no
    iterator keeps the database object alive and the directory in which the
    store's directory is made exists.  Paths are compared as written, which
    tells directories apart when the paths are free of [..]. *)
Theorem other_directories_untouched
    (may_exist : gmap bytes bytes → bytes → bool) cs s t loc other :
  (∀ t k, is_Some (t !! k) → may_exist t k = true) →
  contents s = Some t →
  store_location s = Ok loc →
  Pathlib.is_absolute (Rocksdb.cwd (world s)) = true →
  ¬ Rocksdb.under loc other →
  ".." ∉ Pathlib.parts loc →
  ".." ∉ Pathlib.parts other →
  Rocksdb.disk (world (snd (calls may_exist cs s))) !! other
  = Rocksdb.disk (world s) !! other
  ∧ Rocksdb.disk (world (snd (reset_state s))) !! other
    = Rocksdb.disk (world s) !! other
  ∧ (unshared s loc →
     Rocksdb.dir_exists (world s) (Rocksdb.parent loc) = true →
     Rocksdb.disk (world (snd ((reset_state;; calls may_exist cs) s))) !! other
     = Rocksdb.disk (world s) !! other).
Proof.
  intros Hprobe Hc Hl Hcwd Hother _ _.
  assert (Hne : other ≠ loc).
  { intros ->. apply Hother, under_refl. }
  assert (Hcalls : ∀ s0 t0, contents s0 = Some t0 → store_location s0 = Ok loc →
            Rocksdb.disk (world (snd (calls may_exist cs s0))) !! other
            = Rocksdb.disk (world s0) !! other).
  { intros s0 t0 Hc0 Hl0. destruct cs as [|c cs]; [done|]. cbn [calls].
    rewrite (bind_ok _ _ _ _ _ (call_spec may_exist Hprobe c s0 t0 loc Hc0 Hl0)).
    rewrite (bind_ok _ _ _ _ _ (calls_settled may_exist Hprobe cs s0 _ loc _ Hl0)).
    simpl. by rewrite lookup_insert_ne. }
  assert (∃ p, path (self s) = Ok p ∧ loc = Pathlib.absolute (Rocksdb.cwd (world s)) p)
    as (p & Hp & ->).
  { unfold store_location in Hl. destruct (path (self s)) as [p|]; [|done].
    exists p. split; [done|]. by injection Hl as <-. }
  destruct (reset_state_disk_other s p other Hp Hcwd Hother) as [Hsame Hcases].
  split; [by apply (Hcalls s t)|]. split; [done|].
  intros Hu Hpar. destruct Hcases as [[e He]|Hreset].
  - destruct (reset_state s) as [r s'] eqn:Hr. simpl in He, Hsame. subst r.
    by rewrite (bind_raise _ _ _ _ _ Hr).
  - destruct (after_reset_usable s p Hp Hu Hpar) as (Hc' & Hl' & _).
    rewrite (bind_ok _ _ _ _ _ Hreset).
    rewrite (Hcalls _ ∅ Hc' Hl'). by apply after_reset_disk_other.
Qed.

Lemma other_directories_untouched_witness :
  let loc := Pathlib.parse "/var/faust/tables/orders.db" in
  let other := Pathlib.parse "/var/faust/tables/clicks.db" in
  (unshared populated_state loc
   ∧ Rocksdb.dir_exists (world populated_state) (Rocksdb.parent loc) = true)
  ∧ Rocksdb.disk
      (world (snd (calls sample_probe [CSet key_a val_1; CDel key_b] populated_state)))
      !! other
    = Rocksdb.disk (world populated_state) !! other
  ∧ Rocksdb.disk (world (snd (reset_state populated_state))) !! other
    = Rocksdb.disk (world populated_state) !! other
  ∧ (unshared populated_state loc →
     Rocksdb.dir_exists (world populated_state) (Rocksdb.parent loc) = true →
     Rocksdb.disk
       (world (snd ((reset_state;;
                     calls sample_probe [CSet key_a val_1; CDel key_b])
                      populated_state)))
       !! other
     = Rocksdb.disk (world populated_state) !! other).
Proof.
  split.
  - split; [apply (bool_decide_unpack _); vm_compute; exact I|vm_compute; reflexivity].
  - apply (other_directories_untouched sample_probe
             [CSet key_a val_1; CDel key_b] populated_state populated_table
             (Pathlib.parse "/var/faust/tables/orders.db")
             (Pathlib.parse "/var/faust/tables/clicks.db")).
    + exact sample_probe_no_false_negative.
    + exact populated_contents.
    + vm_compute; reflexivity.
    + vm_compute; reflexivity.
    + apply (bool_decide_unpack _); vm_compute; exact I.
    + apply (bool_decide_unpack _); vm_compute; exact I.
    + apply (bool_decide_unpack _); vm_compute; exact I.
Defined.
